(** * Actuator groups: construction, gain overlays and textual summary

    A shallow embedding of
    [source/extensions/omni.isaac.orbit/omni/isaac/orbit/actuators/actuator_base.py],
    class [ActuatorBase]: the constructor [__init__] (buffer allocation,
    limit parsing, the stiffness and damping loops over
    [re.fullmatch]), the properties [num_joints], [dof_names],
    [dof_indices] and the summary [__str__]. *)

From Stdlib Require Import ZArith String Ascii List DecimalString.
From stdpp Require Import base tactics option list.

Open Scope string_scope.

(** ** Exceptions and results *)

(** What the library calls of the constructor can raise.  [re_error] is
    Python's [re.error], raised by [re.fullmatch] on a pattern that does not
    compile; [re.fullmatch] can also raise [OverflowError] and
    [RecursionError].  A tensor column assignment raises [IndexError] out of
    range, and [RuntimeError] or [ValueError] on a value that the element type
    of the tensor cannot take. *)
Inductive library_error : Type :=
  | re_error (pattern : string)
  | OverflowError
  | RecursionError
  | RuntimeError
  | ValueError
  | IndexError.

(** What a call can raise: an error of a library, or [ConfigurationError], the
    error the specification names.  No statement of the source raises the
    latter and no library defines it. *)
Inductive exception : Type :=
  | Library (e : library_error)
  | ConfigurationError.
Coercion Library : library_error >-> exception.

Inductive result (A : Type) : Type :=
  | Ok (a : A)
  | Raise (e : exception).
Arguments Ok {A} a.
Arguments Raise {A} e.

Definition bind {A B : Type} (r : result A) (k : A -> result B) : result B :=
  match r with
  | Ok a => k a
  | Raise e => Raise e
  end.

Notation "'let!' x ':=' r 'in' k" := (bind r (fun x => k))
  (at level 10, x name, r at level 100, k at level 200).

(** What [re.fullmatch(pattern, string)] can do: return a match object
    (truthy), return [None], or raise. *)
Inductive re_outcome : Type :=
  | Match
  | NoMatch
  | Raises (e : library_error).

(** [dof_ids : list[int] | Ellipsis]. *)
Inductive dof_ids : Type :=
  | Ellipsis
  | Ids (ids : list Z).

(** ** Tensors of rank two *)

Section Tensors.
Context {scalar : Type}.
Variable zero : scalar.
(** The error the write of a value into a tensor ends with, if the element
    type cannot take the value. *)
Variable write_error : scalar -> option library_error.

(** A [torch.Tensor] of rank two: its shape and its rows.  The shape is kept
    beside the rows because a tensor with no rows still has a column
    count. *)
Record Tensor : Type := mkTensor {
  shape : nat * nat;
  rows : list (list scalar)
}.

(** [torch.zeros(m, n)]. *)
Definition zeros (m n : nat) : Tensor :=
  {| shape := (m, n); rows := replicate m (replicate n zero) |}.

(** [torch.zeros_like(t)]. *)
Definition zeros_like (t : Tensor) : Tensor :=
  zeros (fst (shape t)) (snd (shape t)).

(** The tensor [t] with [value] at column [index] of every row. *)
Definition put_column (t : Tensor) (index : nat) (value : scalar) : Tensor :=
  {| shape := shape t; rows := (fun row => <[index := value]> row) <$> rows t |}.

(** [t[:, index] = value] for a non-negative [index].  The value is converted
    to the element type first, which raises on a value out of its range; then
    every row gets the value at column [index], and out of range the
    assignment raises [IndexError].  The rounding of the conversion is left
    out: the value stored is [value]. *)
Definition set_column (t : Tensor) (index : nat) (value : scalar) : result Tensor :=
  match write_error value with
  | Some e => Raise e
  | None =>
      if decide (index < snd (shape t))
      then Ok (put_column t index value)
      else Raise IndexError
  end.

(** [t[env, index]], where it exists. *)
Definition cell (t : Tensor) (env index : nat) : option scalar :=
  match rows t !! env with
  | Some row => row !! index
  | None => None
  end.

(** The rows agree with the shape. *)
Definition well_shaped (t : Tensor) : Prop :=
  length (rows t) = fst (shape t) /\
  Forall (fun row => length row = snd (shape t)) (rows t).
End Tensors.

Arguments Tensor scalar : clear implicits.

(** ** Configuration *)

(** Modelled from the spec: the class [ActuatorBaseCfg] of [actuator_cfg.py],
    which the source imports for type checking only.  Section 6 of the
    specification gives its fields: an ordered list of joint-name patterns, an
    optional scalar effort limit, an optional scalar velocity limit, and
    optional ordered mappings from pattern to an optional stiffness or damping
    value.  The fields carry the names the constructor reads. *)
Record ActuatorBaseCfg (scalar : Type) : Type := mkCfg {
  cfg_dof_names_expr : list string;
  cfg_effort_limit : option scalar;
  cfg_velocity_limit : option scalar;
  cfg_stiffness : option (list (string * option scalar));
  cfg_damping : option (list (string * option scalar))
}.
Arguments mkCfg {scalar}.
Arguments cfg_dof_names_expr {scalar}.
Arguments cfg_effort_limit {scalar}.
Arguments cfg_velocity_limit {scalar}.
Arguments cfg_stiffness {scalar}.
Arguments cfg_damping {scalar}.

(** ** The actuator group *)

(** The attributes of an [ActuatorBase] instance.  [class_name] is
    [self.__class__.__name__], the name of the concrete subclass. *)
Record ActuatorBase (scalar : Type) : Type := mkActuator {
  class_name : string;
  cfg : ActuatorBaseCfg scalar;
  _num_envs : nat;
  _device : string;
  _dof_names : list string;
  _dof_indices : dof_ids;
  computed_effort : Tensor scalar;
  applied_effort : Tensor scalar;
  effort_limit : scalar;
  velocity_limit : scalar;
  stiffness : Tensor scalar;
  damping : Tensor scalar
}.
Arguments mkActuator {scalar}.
Arguments class_name {scalar}.
Arguments cfg {scalar}.
Arguments _num_envs {scalar}.
Arguments _device {scalar}.
Arguments _dof_names {scalar}.
Arguments _dof_indices {scalar}.
Arguments computed_effort {scalar}.
Arguments applied_effort {scalar}.
Arguments effort_limit {scalar}.
Arguments velocity_limit {scalar}.
Arguments stiffness {scalar}.
Arguments damping {scalar}.

(** [num_joints], [dof_names], [dof_indices]: the three properties. *)
Definition num_joints {scalar} (self : ActuatorBase scalar) : nat :=
  length (_dof_names self).
Definition dof_names {scalar} (self : ActuatorBase scalar) : list string :=
  _dof_names self.
Definition dof_indices {scalar} (self : ActuatorBase scalar) : dof_ids :=
  _dof_indices self.

Section Construction.
Context {scalar : Type}.
(** The value [torch.zeros] fills with and [torch.inf]. *)
Variables (zero inf : scalar).
(** The error of writing a value into a buffer, if any. *)
Variable write_error : scalar -> option library_error.
(** [re.fullmatch] of the Python standard library. *)
Variable re_fullmatch : string -> string -> re_outcome.

Definition gain_map : Type := list (string * option scalar).

(** The inner loop [for re_key, value in items: if re.fullmatch(re_key,
    dof_name): if value is not None: buf[:, index] = value]. *)
Fixpoint assign_items (items : gain_map) (dof_name : string) (index : nat)
    (buf : Tensor scalar) : result (Tensor scalar) :=
  match items with
  | [] => Ok buf
  | (re_key, value) :: rest =>
      match re_fullmatch re_key dof_name with
      | Raises e => Raise e
      | NoMatch => assign_items rest dof_name index buf
      | Match =>
          match value with
          | Some v =>
              let! buf' := set_column write_error buf index v in
              assign_items rest dof_name index buf'
          | None => assign_items rest dof_name index buf
          end
      end
  end.

(** [if gains is not None: for re_key, value in gains.items(): ...]. *)
Definition assign_gains (gains : option gain_map) (dof_name : string)
    (index : nat) (buf : Tensor scalar) : result (Tensor scalar) :=
  match gains with
  | None => Ok buf
  | Some items => assign_items items dof_name index buf
  end.

Definition with_gains (self : ActuatorBase scalar) (k d : Tensor scalar)
    : ActuatorBase scalar :=
  {| class_name := class_name self; cfg := cfg self;
     _num_envs := _num_envs self; _device := _device self;
     _dof_names := _dof_names self; _dof_indices := _dof_indices self;
     computed_effort := computed_effort self;
     applied_effort := applied_effort self;
     effort_limit := effort_limit self;
     velocity_limit := velocity_limit self;
     stiffness := k; damping := d |}.

(** The outer loop [for index, dof_name in enumerate(self.dof_names)],
    entered at position [index] with the names still to visit: stiffness
    first, then damping, for each joint. *)
Fixpoint parse_gains (index : nat) (names : list string)
    (self : ActuatorBase scalar) : result (ActuatorBase scalar) :=
  match names with
  | [] => Ok self
  | dof_name :: rest =>
      let! k := assign_gains (cfg_stiffness (cfg self)) dof_name index (stiffness self) in
      let! d := assign_gains (cfg_damping (cfg self)) dof_name index (damping self) in
      parse_gains (S index) rest (with_gains self k d)
  end.

(** Lines 58-69: the parameters are saved and the four buffers allocated.
    The limits are still the class-level defaults. *)
Definition allocate (cls : string) (c : ActuatorBaseCfg scalar)
    (names : list string) (ids : dof_ids) (num_envs : nat) (device : string)
    : ActuatorBase scalar :=
  let computed := zeros zero num_envs (length names) in
  {| class_name := cls; cfg := c;
     _num_envs := num_envs; _device := device;
     _dof_names := names; _dof_indices := ids;
     computed_effort := computed;
     applied_effort := zeros_like zero computed;
     effort_limit := inf;
     velocity_limit := inf;
     stiffness := zeros_like zero computed;
     damping := zeros_like zero computed |}.

(** Lines 72-75: a limit of the configuration replaces the default. *)
Definition parse_limits (self : ActuatorBase scalar) : ActuatorBase scalar :=
  {| class_name := class_name self; cfg := cfg self;
     _num_envs := _num_envs self; _device := _device self;
     _dof_names := _dof_names self; _dof_indices := _dof_indices self;
     computed_effort := computed_effort self;
     applied_effort := applied_effort self;
     effort_limit :=
       match cfg_effort_limit (cfg self) with
       | Some l => l
       | None => effort_limit self
       end;
     velocity_limit :=
       match cfg_velocity_limit (cfg self) with
       | Some l => l
       | None => velocity_limit self
       end;
     stiffness := stiffness self; damping := damping self |}.

(** [ActuatorBase.__init__], called on an instance of the subclass named
    [cls].  [num_envs] is a count: [torch.zeros] is not modelled on a negative
    dimension. *)
Definition __init__ (cls : string) (c : ActuatorBaseCfg scalar)
    (names : list string) (ids : dof_ids) (num_envs : nat) (device : string)
    : result (ActuatorBase scalar) :=
  let self := parse_limits (allocate cls c names ids num_envs device) in
  parse_gains 0 (dof_names self) self.
End Construction.

(** ** The textual summary *)

(** Characters are read as the code points 0 to 255. *)
Definition tab : ascii := ascii_of_N 9.
Definition newline : ascii := ascii_of_N 10.
Definition carriage_return : ascii := ascii_of_N 13.
Definition backslash : ascii := ascii_of_N 92.
Definition single_quote : ascii := ascii_of_N 39.
Definition double_quote : ascii := ascii_of_N 34.

(** [str(n)] for an [int]. *)
Definition str_int (n : Z) : string := NilZero.string_of_int (Z.to_int n).

(** The two lower-case hexadecimal digits of [\xhh]. *)
Definition hex_digit (n : N) : ascii :=
  if (n <? 10)%N then ascii_of_N (48 + n) else ascii_of_N (87 + n).

Definition hex_escape (c : ascii) : string :=
  let n := N_of_ascii c in
  String backslash (String "x" (String (hex_digit (n / 16)) (String (hex_digit (n mod 16)) EmptyString))).

(** [str.isprintable] on one character below 256: the control characters, the
    no-break space and the soft hyphen are not printable. *)
Definition is_printable (c : ascii) : bool :=
  let n := N_of_ascii c in
  ((32 <=? n)%N && (n <? 127)%N) || ((161 <=? n)%N && negb (n =? 173)%N).

Fixpoint contains (c : ascii) (s : string) : bool :=
  match s with
  | EmptyString => false
  | String d rest => Ascii.eqb c d || contains c rest
  end.

(** One character of [repr(s)], inside the quotes [quote]. *)
Definition repr_char (quote c : ascii) : string :=
  if Ascii.eqb c quote || Ascii.eqb c backslash then String backslash (String c EmptyString)
  else if Ascii.eqb c tab then String backslash "t"
  else if Ascii.eqb c newline then String backslash "n"
  else if Ascii.eqb c carriage_return then String backslash "r"
  else if is_printable c then String c EmptyString
  else hex_escape c.

Fixpoint repr_chars (quote : ascii) (s : string) : string :=
  match s with
  | EmptyString => EmptyString
  | String c rest => repr_char quote c ++ repr_chars quote rest
  end.

(** [repr(s)] for a [str]: single quotes, unless the string has a single quote
    and no double quote. *)
Definition repr_str (s : string) : string :=
  let quote :=
    if contains single_quote s && negb (contains double_quote s)
    then double_quote else single_quote in
  String quote (repr_chars quote s ++ String quote EmptyString).

(** [", ".join(items)]. *)
Fixpoint join_comma (items : list string) : string :=
  match items with
  | [] => EmptyString
  | [item] => item
  | item :: rest => item ++ ", " ++ join_comma rest
  end.

(** [str(l)] for a list: the [repr] of each element between brackets. *)
Definition str_list {A : Type} (repr : A -> string) (l : list A) : string :=
  "[" ++ join_comma (repr <$> l) ++ "]".

(** [list(range(n))]. *)
Definition range (n : nat) : list Z := Z.of_nat <$> seq 0 n.

Definition line (label value : string) : string :=
  String tab (label ++ value ++ String newline EmptyString).

(** [ActuatorBase.__str__]. *)
Definition __str__ {scalar} (self : ActuatorBase scalar) : string :=
  let dof_indices :=
    match dof_indices self with
    | Ellipsis => range (num_joints self)
    | Ids ids => ids
    end in
  "<class " ++ class_name self ++ "> object:" ++ String newline EmptyString ++
  line "Number of joints      : " (str_int (Z.of_nat (num_joints self))) ++
  line "Joint names expression: " (str_list repr_str (cfg_dof_names_expr (cfg self))) ++
  line "Joint names           : " (str_list repr_str (dof_names self)) ++
  line "Joint indices         : " (str_list str_int dof_indices).

(** ** A fragment of the pattern language

    [re.fullmatch] belongs to the Python standard library.  The development
    takes it as a parameter; this module gives its behaviour on a fragment of
    the pattern language, for use on concrete inputs.  It covers the patterns built from literal characters, [.], the
    postfix operators [*], [+] and [?], alternation [|], groups [( )] and a
    backslash before a punctuation character.  It rejects what [re.compile]
    rejects there: a group left open, a closing parenthesis with no group, an
    operator with nothing to repeat, a starred operator, a backslash at the
    end. *)
Module Re.

Inductive regex : Type :=
  | Void
  | Eps
  | Chr (c : ascii)
  | AnyChar
  | Cat (r s : regex)
  | Alt (r s : regex)
  | Star (r : regex).


Fixpoint nullable (r : regex) : bool :=
  match r with
  | Void | Chr _ | AnyChar => false
  | Eps | Star _ => true
  | Cat r s => nullable r && nullable s
  | Alt r s => nullable r || nullable s
  end.

(** The derivative of [r] by the character [c]. *)
Fixpoint deriv (c : ascii) (r : regex) : regex :=
  match r with
  | Void | Eps => Void
  | Chr d => if Ascii.eqb c d then Eps else Void
  | AnyChar => if Ascii.eqb c newline then Void else Eps
  | Cat r s =>
      if nullable r then Alt (Cat (deriv c r) s) (deriv c s)
      else Cat (deriv c r) s
  | Alt r s => Alt (deriv c r) (deriv c s)
  | Star r => Cat (deriv c r) (Star r)
  end.

(** Whether the whole of [s] is in the language of [r]. *)
Fixpoint accepts (r : regex) (s : list ascii) : bool :=
  match s with
  | [] => nullable r
  | c :: rest => accepts (deriv c r) rest
  end.

(** *** Reading a pattern *)

(** A group being read: the branches already closed by [|], latest first,
    and the items of the open branch, latest first. *)
Record frame : Type := mkFrame {
  branches : list regex;
  items : list regex
}.

Definition cat_of (rs : list regex) : regex :=
  match rs with
  | [] => Eps
  | r :: rest => fold_left Cat rest r
  end.

Definition alt_of (rs : list regex) : regex :=
  match rs with
  | [] => Void
  | r :: rest => fold_left Alt rest r
  end.

Definition close_branch (f : frame) : list regex :=
  cat_of (rev (items f)) :: branches f.

Definition close (f : frame) : regex := alt_of (rev (close_branch f)).

Definition push (r : regex) (f : frame) : frame :=
  {| branches := branches f; items := r :: items f |}.

Definition opened : frame := {| branches := []; items := [] |}.

(** The outcome of reading a pattern: its expression, a pattern that
    [re.compile] rejects, or a pattern outside the fragment. *)
Inductive parsed : Type :=
  | Parsed (r : regex)
  | Invalid
  | Unsupported.

Definition is_alnum (c : ascii) : bool :=
  let n := N_of_ascii c in
  ((48 <=? n) && (n <=? 57) || (65 <=? n) && (n <=? 90) || (97 <=? n) && (n <=? 122))%N.

Definition is_one_of (c : ascii) (s : string) : bool := contains c s.

(** [quantified] tells that the latest item of the open branch already
    carries a postfix operator. *)
Fixpoint parse_from (p : list ascii) (cur : frame) (stack : list frame)
    (quantified : bool) : parsed :=
  match p with
  | [] =>
      match stack with
      | [] => Parsed (close cur)
      | _ :: _ => Invalid
      end
  | c :: rest =>
      if Ascii.eqb c "(" then
        match rest with
        | "?"%char :: _ => Unsupported
        | _ => parse_from rest opened (cur :: stack) false
        end
      else if Ascii.eqb c ")" then
        match stack with
        | [] => Invalid
        | outer :: stack' => parse_from rest (push (close cur) outer) stack' false
        end
      else if Ascii.eqb c "|" then
        parse_from rest {| branches := close_branch cur; items := [] |} stack false
      else if is_one_of c "*+?" then
        match items cur with
        | [] => Invalid
        | r :: before =>
            if quantified then (if Ascii.eqb c "*" then Invalid else Unsupported)
            else
              let r' :=
                if Ascii.eqb c "*" then Star r
                else if Ascii.eqb c "+" then Cat r (Star r)
                else Alt r Eps in
              parse_from rest {| branches := branches cur; items := r' :: before |}
                stack true
        end
      else if Ascii.eqb c backslash then
        match rest with
        | [] => Invalid
        | d :: rest' =>
            if is_alnum d then Unsupported
            else parse_from rest' (push (Chr d) cur) stack false
        end
      else if Ascii.eqb c "." then
        parse_from rest (push AnyChar cur) stack false
      else if is_one_of c "[{^$" then Unsupported
      else parse_from rest (push (Chr c) cur) stack false
  end.

Definition parse (pattern : string) : parsed :=
  parse_from (list_ascii_of_string pattern) opened [] false.

(** [re.fullmatch], given its behaviour [beyond] on the patterns outside the
    fragment: inside the fragment a pattern that reads as an expression
    matches the strings of its language, and a pattern that does not read
    raises [re.error]. *)
Definition fullmatch (beyond : string -> string -> re_outcome) (pattern s : string)
    : re_outcome :=
  match parse pattern with
  | Parsed r => if accepts r (list_ascii_of_string s) then Match else NoMatch
  | Invalid => Raises (re_error pattern)
  | Unsupported => beyond pattern s
  end.

End Re.


(** ** What the specification says of the overlay *)

Section Overlay.
Context {scalar : Type}.
Variable re_fullmatch : string -> string -> re_outcome.

(** The value the overlay leaves on a joint, in the words of the
    specification: the value of the last pattern, in map order, that
    full-matches the joint's name and carries a value; none when no pattern
    does. *)
Fixpoint last_assigned (items : list (string * option scalar)) (dof_name : string)
    : option scalar :=
  match items with
  | [] => None
  | (re_key, value) :: rest =>
      match last_assigned rest dof_name with
      | Some v => Some v
      | None =>
          match re_fullmatch re_key dof_name with
          | Match => value
          | NoMatch | Raises _ => None
          end
      end
  end.

(** The same for a map that may be absent. *)
Definition overlay_value (gains : option (list (string * option scalar)))
    (dof_name : string) : option scalar :=
  match gains with
  | None => None
  | Some items => last_assigned items dof_name
  end.

(** The keys of a map that may be absent, and its entries. *)
Definition keys (gains : option (list (string * option scalar))) : list string :=
  match gains with
  | None => []
  | Some items => fst <$> items
  end.

Definition entries (gains : option (list (string * option scalar)))
    : list (string * option scalar) :=
  match gains with
  | None => []
  | Some items => items
  end.

(** What an overlay value does to a column, and to one of its cells. *)
Definition overlaid (o : option scalar) (buf : Tensor scalar) (index : nat)
    : Tensor scalar :=
  match o with
  | Some v => put_column buf index v
  | None => buf
  end.

Definition overlaid_cell (o : option scalar) (c : option scalar) : option scalar :=
  match o with
  | Some v => (fun _ => v) <$> c
  | None => c
  end.
End Overlay.

(** The joint indices of a group with the sentinel resolved, and the invariant
    the specification states for a joint set: the indices are unique and as
    many as the joint names. *)
Definition resolved_indices {scalar} (self : ActuatorBase scalar) : list Z :=
  match dof_indices self with
  | Ellipsis => range (num_joints self)
  | Ids ids => ids
  end.

Definition joint_set_invariant {scalar} (self : ActuatorBase scalar) : Prop :=
  NoDup (resolved_indices self) /\
  length (resolved_indices self) = length (dof_names self).

(** The group [self] with other joint indices. *)
Definition with_indices {scalar} (self : ActuatorBase scalar) (ids : dof_ids)
    : ActuatorBase scalar :=
  {| class_name := class_name self; cfg := cfg self;
     _num_envs := _num_envs self; _device := _device self;
     _dof_names := _dof_names self; _dof_indices := ids;
     computed_effort := computed_effort self;
     applied_effort := applied_effort self;
     effort_limit := effort_limit self;
     velocity_limit := velocity_limit self;
     stiffness := stiffness self; damping := damping self |}.

(** [needle] occurs in [s]. *)
Definition occurs_in (needle s : string) : Prop :=
  exists before after : string, s = before ++ needle ++ after.

(** ** The instance used on concrete inputs *)

(** Scalars as far as the constructor handles them (it stores and copies them
    and computes nothing): an integral value or positive infinity. *)
Inductive number : Type :=
  | Num (z : Z)
  | Inf.

(** Writing into a buffer: an integer outside the 64-bit range is refused with
    [ValueError]; infinity is taken. *)
Definition store_error (value : number) : option library_error :=
  match value with
  | Num z => if ((- 2 ^ 63 <=? z) && (z <? 2 ^ 63))%Z then None else Some ValueError
  | Inf => None
  end.

(** A stand-in for the behaviour of [re.fullmatch] outside the fragment, which
    none of the inputs below reaches. *)
Definition unreached (pattern s : string) : re_outcome := NoMatch.

Definition fragment_matcher : string -> string -> re_outcome := Re.fullmatch unreached.



Definition construct : string -> ActuatorBaseCfg number -> list string -> dof_ids ->
    nat -> string -> result (ActuatorBase number) :=
  __init__ (Num 0) Inf store_error fragment_matcher.

(** The configuration of the overlay example of the specification. *)
Definition hip_cfg : ActuatorBaseCfg number :=
  {| cfg_dof_names_expr := ["hip_.*"];
     cfg_effort_limit := None;
     cfg_velocity_limit := None;
     cfg_stiffness := Some [("hip_.*", Some (Num 50)); ("hip_left", Some (Num 80))];
     cfg_damping := None |}.

Definition hip_joints : list string := ["hip_left"; "hip_right"].


(** A configuration with an effort limit and no velocity limit. *)
Definition limited_cfg : ActuatorBaseCfg number :=
  {| cfg_dof_names_expr := ["hip_.*"];
     cfg_effort_limit := Some (Num 40);
     cfg_velocity_limit := None;
     cfg_stiffness := Some [("hip_.*", Some (Num 50))];
     cfg_damping := Some [("hip_.*", None)] |}.


(** A stiffness map whose first key does not compile. *)
Definition unclosed_first_cfg : ActuatorBaseCfg number :=
  {| cfg_dof_names_expr := ["hip_.*"];
     cfg_effort_limit := None;
     cfg_velocity_limit := None;
     cfg_stiffness := Some [("(", None); ("hip_.*", Some (Num 50))];
     cfg_damping := None |}.

(** A stiffness map with a key that does not compile: an unclosed group. *)
Definition unclosed_cfg : ActuatorBaseCfg number :=
  {| cfg_dof_names_expr := ["hip_.*"];
     cfg_effort_limit := None;
     cfg_velocity_limit := None;
     cfg_stiffness := Some [("hip_.*", Some (Num 50)); ("(", Some (Num 80))];
     cfg_damping := None |}.

(** A group-defining expression that does not compile, with sound maps. *)
Definition unclosed_expr_cfg : ActuatorBaseCfg number :=
  {| cfg_dof_names_expr := ["("];
     cfg_effort_limit := None;
     cfg_velocity_limit := None;
     cfg_stiffness := Some [("hip_.*", Some (Num 50))];
     cfg_damping := None |}.

(** Negative limits. *)
Definition negative_cfg : ActuatorBaseCfg number :=
  {| cfg_dof_names_expr := ["hip_.*"];
     cfg_effort_limit := Some (Num (-5));
     cfg_velocity_limit := Some (Num (-1));
     cfg_stiffness := Some [("hip_.*", Some (Num 50))];
     cfg_damping := None |}.

(** A key without a value that does not compile, before a damping key that
    does not compile either. *)
Definition unvalued_cfg : ActuatorBaseCfg number :=
  {| cfg_dof_names_expr := ["hip_.*"];
     cfg_effort_limit := None;
     cfg_velocity_limit := None;
     cfg_stiffness := Some [("hip_.*", Some (Num 50)); ("*", None)];
     cfg_damping := Some [("(", Some (Num 1))] |}.

(** [limited_cfg] without the entries that carry no value. *)
Definition limited_cfg_pruned : ActuatorBaseCfg number :=
  {| cfg_dof_names_expr := ["hip_.*"];
     cfg_effort_limit := Some (Num 40);
     cfg_velocity_limit := None;
     cfg_stiffness := Some [("hip_.*", Some (Num 50))];
     cfg_damping := Some [] |}.

(** Maps whose patterns match none of the hip joints. *)
Definition knee_cfg : ActuatorBaseCfg number :=
  {| cfg_dof_names_expr := ["hip_.*"];
     cfg_effort_limit := None;
     cfg_velocity_limit := None;
     cfg_stiffness := Some [("knee_.*", Some (Num 50))];
     cfg_damping := Some [("ankle", Some (Num 2))] |}.

(** Two patterns for different joints, in both orders. *)
Definition left_right_cfg : ActuatorBaseCfg number :=
  {| cfg_dof_names_expr := ["hip_.*"];
     cfg_effort_limit := None;
     cfg_velocity_limit := None;
     cfg_stiffness := Some [("hip_left", Some (Num 80)); ("hip_right", Some (Num 50))];
     cfg_damping := None |}.

Definition right_left_cfg : ActuatorBaseCfg number :=
  {| cfg_dof_names_expr := ["hip_.*"];
     cfg_effort_limit := None;
     cfg_velocity_limit := None;
     cfg_stiffness := Some [("hip_right", Some (Num 50)); ("hip_left", Some (Num 80))];
     cfg_damping := None |}.

(** Sound stiffness keys before a damping key that does not compile. *)
Definition bad_damping_cfg : ActuatorBaseCfg number :=
  {| cfg_dof_names_expr := ["hip_.*"];
     cfg_effort_limit := None;
     cfg_velocity_limit := None;
     cfg_stiffness := Some [("hip_.*", Some (Num 50))];
     cfg_damping := Some [("hip_left", None); ("(", Some (Num 1))] |}.

(** ** Notions for the behaviour of the constructor as a whole *)

Section Whole.
Context {scalar : Type}.
Variable zero : scalar.
Variable re_fullmatch : string -> string -> re_outcome.

(** The error the write of values into a buffer ends with, if any. *)
Variable write_error : scalar -> option library_error.

(** An entry of a gain map passes on a joint name when the loop goes through
    it without an error: [re.fullmatch] does not raise for its key, and where
    the key full-matches and carries a value, the value can be written. *)
Definition passes (dof_name : string) (entry : string * option scalar) : Prop :=
  match re_fullmatch (fst entry) dof_name with
  | Raises _ => False
  | NoMatch => True
  | Match =>
      match snd entry with
      | Some v => write_error v = None
      | None => True
      end
  end.

(** An entry fails on a joint name with the error [e] when [re.fullmatch]
    raises [e] for its key, or the key full-matches and the write of its value
    ends with [e]. *)
Definition fails (dof_name : string) (entry : string * option scalar)
    (e : library_error) : Prop :=
  re_fullmatch (fst entry) dof_name = Raises e \/
  (re_fullmatch (fst entry) dof_name = Match /\
   exists v, snd entry = Some v /\ write_error v = Some e).

(** The tensor with, in each of [num_envs] rows, the overlay value of every
    joint name, zero for a joint without one. *)
Definition gains_tensor (gains : option (list (string * option scalar)))
    (names : list string) (num_envs : nat) : Tensor scalar :=
  {| shape := (num_envs, length names);
     rows := replicate num_envs
               ((fun dof_name => default zero (overlay_value re_fullmatch gains dof_name))
                  <$> names) |}.

(** Whether an entry of a map carries a value. *)
Definition has_value (entry : string * option scalar) : bool :=
  match snd entry with
  | Some _ => true
  | None => false
  end.
End Whole.

(** * Properties *)

(** ** Tensors *)

Section TensorFacts.
Context {scalar : Type}.
Variable zero : scalar.
Variable write_error : scalar -> option library_error.
Implicit Types t : Tensor scalar.

Lemma cell_put_column t index value env j :
  cell (put_column t index value) env j =
  if decide (j = index) then (fun _ => value) <$> cell t env j else cell t env j.
Proof.
  unfold cell, put_column; simpl.
  rewrite list_lookup_fmap.
  destruct (rows t !! env) as [row|]; simpl.
  - destruct (decide (j = index)) as [->|Hne].
    + destruct (decide (index < length row)) as [Hlt|Hge].
      * rewrite list_lookup_insert_eq by done.
        destruct (lookup_lt_is_Some_2 row index Hlt) as [x ->]. done.
      * rewrite list_insert_ge by lia.
        rewrite (lookup_ge_None_2 row index) by lia. done.
    + by rewrite list_lookup_insert_ne.
  - by destruct (decide (j = index)).
Qed.

Lemma put_column_twice t index v w :
  put_column (put_column t index v) index w = put_column t index w.
Proof.
  unfold put_column; simpl. f_equal.
  rewrite <- list_fmap_compose. apply list_fmap_ext.
  intros i row _. simpl. apply list_insert_insert_eq.
Qed.

Lemma set_column_Ok t index value t' :
  set_column write_error t index value = Ok t' -> t' = put_column t index value.
Proof.
  unfold set_column. destruct (write_error value); [discriminate|].
  case_decide; congruence.
Qed.

Lemma set_column_Ok_written t index value t' :
  set_column write_error t index value = Ok t' -> write_error value = None.
Proof. unfold set_column. by destruct (write_error value). Qed.

Lemma set_column_in_range t index value :
  index < snd (shape t) -> write_error value = None ->
  set_column write_error t index value = Ok (put_column t index value).
Proof. intros Hin Hw. unfold set_column. rewrite Hw. by case_decide. Qed.

Lemma set_column_Raise t index value e :
  index < snd (shape t) ->
  set_column write_error t index value = Raise e ->
  exists le, e = Library le /\ write_error value = Some le.
Proof.
  intros Hin. unfold set_column. destruct (write_error value) as [le|].
  - intros [= <-]. eauto.
  - by case_decide.
Qed.

Lemma well_shaped_zeros m n : well_shaped (zeros zero m n).
Proof.
  split; simpl.
  - apply length_replicate.
  - apply Forall_replicate, length_replicate.
Qed.

Lemma well_shaped_put_column t index value :
  well_shaped t -> well_shaped (put_column t index value).
Proof.
  intros [Hlen Hrows]. split; simpl.
  - by rewrite length_fmap.
  - apply Forall_fmap. eapply Forall_impl; [exact Hrows|].
    intros row Hrow. simpl. by rewrite length_insert.
Qed.

Lemma cell_zeros m n env j :
  env < m -> j < n -> cell (zeros zero m n) env j = Some zero.
Proof.
  intros. unfold cell, zeros; simpl.
  rewrite lookup_replicate_2 by done. by apply lookup_replicate_2.
Qed.

End TensorFacts.

(** ** The two loops *)

Section LoopFacts.
Context {scalar : Type}.
Variable write_error : scalar -> option library_error.
Variable re_fullmatch : string -> string -> re_outcome.
Implicit Types (buf : Tensor scalar) (items : list (string * option scalar)).
Implicit Types (gains : option (list (string * option scalar))).
Implicit Types (self g : ActuatorBase scalar).

Lemma shape_overlaid o buf index : shape (overlaid o buf index) = shape buf.
Proof. by destruct o. Qed.

Lemma cell_overlaid o buf index env j :
  cell (overlaid o buf index) env j =
  if decide (j = index) then overlaid_cell o (cell buf env j) else cell buf env j.
Proof.
  destruct o as [v|]; simpl.
  - apply cell_put_column.
  - by case_decide.
Qed.

(** The inner loop, when it completes, has the effect of the one write the
    specification describes. *)
Lemma assign_items_Ok items dof_name index buf buf' :
  assign_items write_error re_fullmatch items dof_name index buf = Ok buf' ->
  buf' = overlaid (last_assigned re_fullmatch items dof_name) buf index.
Proof.
  revert buf. induction items as [|[re_key value] rest IH]; intros buf; simpl.
  - congruence.
  - destruct (re_fullmatch re_key dof_name) eqn:Hm; try discriminate.
    + destruct value as [v|].
      * destruct (set_column write_error buf index v) as [buf1|] eqn:Hset;
          simpl; try discriminate.
        apply set_column_Ok in Hset as ->. intros Hrest.
        apply IH in Hrest as ->.
        destruct (last_assigned re_fullmatch rest dof_name); simpl; [|done].
        apply put_column_twice.
      * intros Hrest. apply IH in Hrest as ->.
        by destruct (last_assigned re_fullmatch rest dof_name).
    + intros Hrest. apply IH in Hrest as ->.
      by destruct (last_assigned re_fullmatch rest dof_name).
Qed.

(** A loop that completes went through every entry without an error. *)
Lemma assign_items_Ok_passes items dof_name index buf buf' :
  assign_items write_error re_fullmatch items dof_name index buf = Ok buf' ->
  Forall (passes re_fullmatch write_error dof_name) items.
Proof.
  revert buf. induction items as [|[re_key value] rest IH]; intros buf; simpl.
  - constructor.
  - unfold passes at 1. simpl.
    destruct (re_fullmatch re_key dof_name) eqn:Hm; try discriminate.
    + destruct value as [v|].
      * destruct (set_column write_error buf index v) as [buf1|] eqn:Hset;
          simpl; try discriminate.
        intros Hrest. constructor; [|by eapply IH].
        unfold passes. simpl. rewrite Hm. by eapply set_column_Ok_written.
      * intros Hrest. constructor; [|by eapply IH].
        unfold passes. simpl. by rewrite Hm.
    + intros Hrest. constructor; [|by eapply IH].
      unfold passes. simpl. by rewrite Hm.
Qed.

(** Within the columns of the buffer, a loop all of whose entries pass
    completes. *)
Lemma assign_items_passes items dof_name index buf :
  index < snd (shape buf) ->
  Forall (passes re_fullmatch write_error dof_name) items ->
  exists buf', assign_items write_error re_fullmatch items dof_name index buf = Ok buf'.
Proof.
  revert buf. induction items as [|[re_key value] rest IH]; intros buf Hin Hall; simpl.
  - eauto.
  - apply Forall_cons in Hall as [Hpass Hall]. unfold passes in Hpass. simpl in Hpass.
    destruct (re_fullmatch re_key dof_name) eqn:Hm; [| |done].
    + destruct value as [v|]; [|by apply IH].
      rewrite set_column_in_range by done. simpl. by apply IH.
    + by apply IH.
Qed.

(** Within the columns of the buffer, the error of the inner loop is the one
    some entry fails with. *)
Lemma assign_items_Raise items dof_name index buf e :
  index < snd (shape buf) ->
  assign_items write_error re_fullmatch items dof_name index buf = Raise e ->
  exists le entry, e = Library le /\ In entry items /\
    fails re_fullmatch write_error dof_name entry le.
Proof.
  revert buf. induction items as [|[re_key value] rest IH]; intros buf Hin; simpl.
  - discriminate.
  - destruct (re_fullmatch re_key dof_name) eqn:Hm.
    + destruct value as [v|].
      * destruct (set_column write_error buf index v) as [buf1|e1] eqn:Hset; simpl.
        -- apply set_column_Ok in Hset as ->. intros Hrest.
           apply IH in Hrest as (le & entry & -> & Hentry & Hfails); [|done]. eauto 6.
        -- intros [= <-]. apply set_column_Raise in Hset as (le & -> & Hw); [|done].
           exists le, (re_key, Some v). split; [done|]. split; [by left|].
           right. simpl. eauto.
      * intros Hrest. apply IH in Hrest as (le & entry & -> & Hentry & Hfails); [|done].
        eauto 6.
    + intros Hrest. apply IH in Hrest as (le & entry & -> & Hentry & Hfails); [|done].
      eauto 6.
    + intros [= <-]. exists e0, (re_key, value). split; [done|]. split; [by left|].
      by left.
Qed.

(** The error of a raising key leaves the loop unchanged when the entries
    before it pass. *)
Lemma assign_items_first_failure before after re_key value dof_name index buf e :
  index < snd (shape buf) ->
  Forall (passes re_fullmatch write_error dof_name) before ->
  re_fullmatch re_key dof_name = Raises e ->
  assign_items write_error re_fullmatch (before ++ (re_key, value) :: after)%list
    dof_name index buf = Raise e.
Proof.
  revert buf. induction before as [|[k w] rest IH]; intros buf Hin Hall Hraise; simpl.
  - by rewrite Hraise.
  - apply Forall_cons in Hall as [Hpass Hall]. unfold passes in Hpass. simpl in Hpass.
    destruct (re_fullmatch k dof_name) eqn:Hm; [| |done].
    + destruct w as [v|]; [|by apply IH].
      rewrite set_column_in_range by done. simpl. by apply IH.
    + by apply IH.
Qed.

Lemma assign_gains_Ok gains dof_name index buf buf' :
  assign_gains write_error re_fullmatch gains dof_name index buf = Ok buf' ->
  buf' = overlaid (overlay_value re_fullmatch gains dof_name) buf index.
Proof.
  destruct gains as [items|]; simpl; [apply assign_items_Ok|congruence].
Qed.

Lemma assign_gains_Ok_passes gains dof_name index buf buf' :
  assign_gains write_error re_fullmatch gains dof_name index buf = Ok buf' ->
  Forall (passes re_fullmatch write_error dof_name) (entries gains).
Proof.
  destruct gains as [items|]; simpl; [apply assign_items_Ok_passes|constructor].
Qed.

Lemma assign_gains_passes gains dof_name index buf :
  index < snd (shape buf) ->
  Forall (passes re_fullmatch write_error dof_name) (entries gains) ->
  exists buf', assign_gains write_error re_fullmatch gains dof_name index buf = Ok buf'.
Proof.
  destruct gains as [items|]; simpl; [apply assign_items_passes|eauto].
Qed.

Lemma assign_gains_Raise gains dof_name index buf e :
  index < snd (shape buf) ->
  assign_gains write_error re_fullmatch gains dof_name index buf = Raise e ->
  exists le entry, e = Library le /\ In entry (entries gains) /\
    fails re_fullmatch write_error dof_name entry le.
Proof.
  destruct gains as [items|]; simpl; [apply assign_items_Raise|discriminate].
Qed.
End LoopFacts.

Section OuterLoopFacts.
Context {scalar : Type}.
Variable write_error : scalar -> option library_error.
Variable re_fullmatch : string -> string -> re_outcome.
Implicit Types (self g : ActuatorBase scalar).

Local Abbreviation stiffness_value self := (overlay_value re_fullmatch (cfg_stiffness (cfg self))).
Local Abbreviation damping_value self := (overlay_value re_fullmatch (cfg_damping (cfg self))).

(** The outer loop changes the two gain buffers and nothing else. *)
Lemma parse_gains_frame names index self g :
  parse_gains write_error re_fullmatch index names self = Ok g ->
  g = with_gains self (stiffness g) (damping g).
Proof.
  revert index self. induction names as [|dof_name rest IH]; intros index self; simpl.
  - intros [= <-]. by destruct self.
  - destruct (assign_gains _ _ _ _ _ (stiffness self)) as [k|]; simpl; [|discriminate].
    destruct (assign_gains _ _ _ _ _ (damping self)) as [d|]; simpl; [|discriminate].
    intros Hrest. apply IH in Hrest. rewrite Hrest at 1. reflexivity.
Qed.

Lemma parse_gains_shape names index self g :
  parse_gains write_error re_fullmatch index names self = Ok g ->
  shape (stiffness g) = shape (stiffness self) /\
  shape (damping g) = shape (damping self).
Proof.
  revert index self. induction names as [|dof_name rest IH]; intros index self; simpl.
  - by intros [= <-].
  - destruct (assign_gains _ _ _ _ _ (stiffness self)) as [k|] eqn:Hk; simpl; [|discriminate].
    destruct (assign_gains _ _ _ _ _ (damping self)) as [d|] eqn:Hd; simpl; [|discriminate].
    intros Hrest. apply IH in Hrest as [-> ->]. simpl.
    apply assign_gains_Ok in Hk as ->. apply assign_gains_Ok in Hd as ->.
    by rewrite !shape_overlaid.
Qed.

(** The cells after the outer loop: the columns before [index] are as they
    were, and the column of each visited joint carries the overlay value of
    the joint's name. *)
Lemma parse_gains_cells names index self g :
  parse_gains write_error re_fullmatch index names self = Ok g ->
  forall env,
    (forall j, j < index ->
       cell (stiffness g) env j = cell (stiffness self) env j /\
       cell (damping g) env j = cell (damping self) env j) /\
    (forall j dof_name, names !! j = Some dof_name ->
       cell (stiffness g) env (index + j) =
         overlaid_cell (stiffness_value self dof_name) (cell (stiffness self) env (index + j)) /\
       cell (damping g) env (index + j) =
         overlaid_cell (damping_value self dof_name) (cell (damping self) env (index + j))).
Proof.
  revert index self. induction names as [|dof_name rest IH]; intros index self; simpl.
  - intros [= <-] env. split; [done|]. intros j name Hj. by rewrite lookup_nil in Hj.
  - destruct (assign_gains _ _ _ _ _ (stiffness self)) as [k|] eqn:Hk; simpl; [|discriminate].
    destruct (assign_gains _ _ _ _ _ (damping self)) as [d|] eqn:Hd; simpl; [|discriminate].
    apply assign_gains_Ok in Hk. apply assign_gains_Ok in Hd.
    intros Hrest env. destruct (IH _ _ Hrest env) as [Hbefore Hvisited]. simpl in *.
    split.
    + intros j Hj. destruct (Hbefore j ltac:(lia)) as [-> ->]. subst k d.
      rewrite !cell_overlaid. case_decide; [lia|done].
    + intros [|j] name Hname; simpl in Hname.
      * injection Hname as <-. rewrite Nat.add_0_r.
        destruct (Hbefore index ltac:(lia)) as [-> ->]. subst k d.
        rewrite !cell_overlaid. by case_decide.
      * replace (index + S j) with (S (index + j)) by lia.
        destruct (Hvisited j name Hname) as [-> ->]. subst k d.
        rewrite !cell_overlaid. case_decide; [lia|done].
Qed.

Lemma well_shaped_overlaid (o : option scalar) (buf : Tensor scalar) (index : nat) :
  well_shaped buf -> well_shaped (overlaid o buf index).
Proof. destruct o; simpl; [apply well_shaped_put_column|done]. Qed.

Lemma parse_gains_well_shaped (names : list string) (index : nat) self g :
  parse_gains write_error re_fullmatch index names self = Ok g ->
  well_shaped (stiffness self) -> well_shaped (damping self) ->
  well_shaped (stiffness g) /\ well_shaped (damping g).
Proof.
  revert index self. induction names as [|dof_name rest IH]; intros index self; simpl.
  - by intros [= <-].
  - destruct (assign_gains _ _ _ _ _ (stiffness self)) as [k|] eqn:Hk; simpl; [|discriminate].
    destruct (assign_gains _ _ _ _ _ (damping self)) as [d|] eqn:Hd; simpl; [|discriminate].
    apply assign_gains_Ok in Hk as ->. apply assign_gains_Ok in Hd as ->.
    intros Hrest Hws Hwd. apply IH in Hrest; [done| |]; simpl; by apply well_shaped_overlaid.
Qed.

(** A loop that completes went through every entry of both maps, on every
    joint name, without an error. *)
Lemma parse_gains_Ok_passes names index self g dof_name :
  parse_gains write_error re_fullmatch index names self = Ok g ->
  In dof_name names ->
  Forall (passes re_fullmatch write_error dof_name)
    (entries (cfg_stiffness (cfg self)) ++ entries (cfg_damping (cfg self)))%list.
Proof.
  revert index self. induction names as [|name rest IH]; intros index self; simpl; [done|].
  destruct (assign_gains _ _ _ _ _ (stiffness self)) as [k|] eqn:Hk; simpl; [|discriminate].
  destruct (assign_gains _ _ _ _ _ (damping self)) as [d|] eqn:Hd; simpl; [|discriminate].
  intros Hrest [->|Hname].
  - apply Forall_app. split.
    + exact (assign_gains_Ok_passes _ _ _ _ _ _ _ Hk).
    + exact (assign_gains_Ok_passes _ _ _ _ _ _ _ Hd).
  - exact (IH _ _ Hrest Hname).
Qed.

(** Inside the columns of the buffers, the loop completes when every entry
    passes on every joint name. *)
Lemma parse_gains_passes names index self :
  index + length names <= snd (shape (stiffness self)) ->
  index + length names <= snd (shape (damping self)) ->
  (forall dof_name, In dof_name names ->
     Forall (passes re_fullmatch write_error dof_name)
       (entries (cfg_stiffness (cfg self)) ++ entries (cfg_damping (cfg self)))%list) ->
  exists g, parse_gains write_error re_fullmatch index names self = Ok g.
Proof.
  revert index self. induction names as [|name rest IH]; intros index self; simpl; [eauto|].
  intros Hk Hd Hall.
  pose proof (Hall name ltac:(by left)) as Hname. apply Forall_app in Hname as [Hpk Hpd].
  destruct (assign_gains_passes write_error re_fullmatch _ name index (stiffness self)
              ltac:(lia) Hpk) as [k Hrunk].
  destruct (assign_gains_passes write_error re_fullmatch _ name index (damping self)
              ltac:(lia) Hpd) as [d Hrund].
  rewrite Hrunk, Hrund. simpl.
  apply assign_gains_Ok in Hrunk as ->. apply assign_gains_Ok in Hrund as ->.
  apply IH; simpl; rewrite ?shape_overlaid; try lia.
  intros dof_name Hin. apply Hall. by right.
Qed.

(** Inside the columns of the buffers, the error of the loop is the one some
    entry of the two maps fails with on some joint name. *)
Lemma parse_gains_Raise names index self e :
  index + length names <= snd (shape (stiffness self)) ->
  index + length names <= snd (shape (damping self)) ->
  parse_gains write_error re_fullmatch index names self = Raise e ->
  exists le dof_name entry,
    e = Library le /\ In dof_name names /\
    In entry (entries (cfg_stiffness (cfg self)) ++ entries (cfg_damping (cfg self)))%list /\
    fails re_fullmatch write_error dof_name entry le.
Proof.
  revert index self. induction names as [|dof_name rest IH]; intros index self; simpl.
  - discriminate.
  - intros Hk Hd.
    destruct (assign_gains _ _ _ _ _ (stiffness self)) as [k|e1] eqn:Hrunk; simpl.
    + destruct (assign_gains _ _ _ _ _ (damping self)) as [d|e2] eqn:Hrund; simpl.
      * intros Hrest.
        apply assign_gains_Ok in Hrunk as ->. apply assign_gains_Ok in Hrund as ->.
        apply IH in Hrest as (le & name & entry & -> & Hname & Hentry & Hfails);
          simpl; rewrite ?shape_overlaid; try lia.
        exists le, name, entry. auto.
      * intros [= <-].
        apply assign_gains_Raise in Hrund as (le & entry & -> & Hentry & Hfails); [|lia].
        exists le, dof_name, entry. rewrite in_app_iff. auto.
    + intros [= <-].
      apply assign_gains_Raise in Hrunk as (le & entry & -> & Hentry & Hfails); [|lia].
      exists le, dof_name, entry. rewrite in_app_iff. auto.
Qed.

(** The loop reads the configuration through its two maps only: from two
    groups with the same maps and the same gain buffers it ends with the same
    error or with the same gain buffers. *)
Lemma parse_gains_same_maps names index self self' :
  cfg_stiffness (cfg self') = cfg_stiffness (cfg self) ->
  cfg_damping (cfg self') = cfg_damping (cfg self) ->
  stiffness self' = stiffness self ->
  damping self' = damping self ->
  match parse_gains write_error re_fullmatch index names self,
        parse_gains write_error re_fullmatch index names self' with
  | Ok g, Ok g' => stiffness g' = stiffness g /\ damping g' = damping g
  | Raise e, Raise e' => e' = e
  | _, _ => False
  end.
Proof.
  revert index self self'.
  induction names as [|dof_name rest IH]; intros index self self' Hk Hd Hks Hds; simpl.
  - done.
  - rewrite Hk, Hd, Hks, Hds.
    destruct (assign_gains _ _ _ _ _ (stiffness self)) as [k|e1]; simpl; [|done].
    destruct (assign_gains _ _ _ _ _ (damping self)) as [d|e2]; simpl; [|done].
    by apply IH.
Qed.
End OuterLoopFacts.

(** ** The constructor *)

Section InitFacts.
Context {scalar : Type}.
Variables (zero inf : scalar).
Variable write_error : scalar -> option library_error.
Variable re_fullmatch : string -> string -> re_outcome.
Variables (cls : string) (c : ActuatorBaseCfg scalar) (names : list string).
Variables (ids : dof_ids) (num_envs : nat) (device : string).

Local Abbreviation start := (parse_limits (allocate zero inf cls c names ids num_envs device)).
Local Abbreviation init :=
  (__init__ zero inf write_error re_fullmatch cls c names ids num_envs device).

(** A constructed group is the freshly allocated one, with its limits
    parsed, up to the two gain buffers. *)
Lemma init_frame g :
  init = Ok g -> g = with_gains start (stiffness g) (damping g).
Proof. apply parse_gains_frame. Qed.

Lemma init_shape g :
  init = Ok g ->
  shape (stiffness g) = (num_envs, length names) /\
  shape (damping g) = (num_envs, length names).
Proof. intros Hrun. by apply parse_gains_shape in Hrun. Qed.

Lemma init_well_shaped g :
  init = Ok g -> well_shaped (stiffness g) /\ well_shaped (damping g).
Proof.
  intros Hrun. apply parse_gains_well_shaped in Hrun; [done| |];
    simpl; apply well_shaped_zeros.
Qed.

Lemma init_cells g env index dof_name :
  init = Ok g ->
  env < num_envs ->
  names !! index = Some dof_name ->
  cell (stiffness g) env index =
    Some (default zero (overlay_value re_fullmatch (cfg_stiffness c) dof_name)) /\
  cell (damping g) env index =
    Some (default zero (overlay_value re_fullmatch (cfg_damping c) dof_name)).
Proof.
  intros Hrun Henv Hname.
  pose proof (lookup_lt_Some _ _ _ Hname) as Hlt.
  destruct (parse_gains_cells _ _ _ _ _ _ Hrun env) as [_ Hvisited].
  destruct (Hvisited index dof_name Hname) as [Hk Hd]. simpl in Hk, Hd.
  rewrite Hk, Hd. unfold zeros_like. simpl.
  rewrite !cell_zeros by done.
  split.
  - by destruct (overlay_value re_fullmatch (cfg_stiffness c) dof_name).
  - by destruct (overlay_value re_fullmatch (cfg_damping c) dof_name).
Qed.

(** An error that leaves the constructor is the error of a library, the one
    some entry of the two maps fails with on one of the joint names. *)
Lemma init_Raise e :
  init = Raise e ->
  exists le dof_name entry,
    e = Library le /\ In dof_name names /\
    In entry (entries (cfg_stiffness c) ++ entries (cfg_damping c))%list /\
    fails re_fullmatch write_error dof_name entry le.
Proof. intros Hrun. apply parse_gains_Raise in Hrun; simpl; try lia. done. Qed.

(** The constructor completes exactly when every entry of the two maps
    passes on every joint name. *)
Lemma init_Ok_passes g dof_name :
  init = Ok g ->
  In dof_name names ->
  Forall (passes re_fullmatch write_error dof_name)
    (entries (cfg_stiffness c) ++ entries (cfg_damping c))%list.
Proof.
  intros Hrun Hname.
  exact (parse_gains_Ok_passes write_error re_fullmatch names 0 _ g dof_name Hrun Hname).
Qed.

Lemma init_total :
  (forall dof_name, In dof_name names ->
     Forall (passes re_fullmatch write_error dof_name)
       (entries (cfg_stiffness c) ++ entries (cfg_damping c))%list) ->
  exists g, init = Ok g.
Proof. intros Hall. apply parse_gains_passes; simpl; try lia. done. Qed.
End InitFacts.

(** The constructor reads the configuration through its two gain maps only,
    as far as its completion and its error go. *)
Lemma init_same_maps {scalar : Type} (zero inf : scalar)
    (write_error : scalar -> option library_error)
    (re_fullmatch : string -> string -> re_outcome)
    (cls cls' : string) (c c' : ActuatorBaseCfg scalar) (names : list string)
    (ids ids' : dof_ids) (num_envs : nat) (device device' : string) :
  cfg_stiffness c' = cfg_stiffness c ->
  cfg_damping c' = cfg_damping c ->
  match __init__ zero inf write_error re_fullmatch cls c names ids num_envs device,
        __init__ zero inf write_error re_fullmatch cls' c' names ids' num_envs device' with
  | Ok g, Ok g' => stiffness g' = stiffness g /\ damping g' = damping g
  | Raise e, Raise e' => e' = e
  | _, _ => False
  end.
Proof. intros Hk Hd. by apply parse_gains_same_maps. Qed.

(** ** The pattern fragment: the matcher decides the language *)

Section RegexFacts.
Import Re.





(** On a pattern that reads as an expression, [Re.fullmatch] answers by
    the language of the expression, whatever it does outside the fragment. *)
Lemma fullmatch_parsed beyond pattern r s :
  parse pattern = Parsed r ->
  fullmatch beyond pattern s =
    if accepts r (list_ascii_of_string s) then Match else NoMatch.
Proof. unfold fullmatch. by intros ->. Qed.
End RegexFacts.


(** * The claims *)

(** C1.  After construction, the stiffness (and the damping) of every joint,
    in every environment, is the value of the last pattern of the map, in map
    order, that full-matches the joint's name and carries a value, and zero
    when there is none: each pattern overwrites the joints it matches and no
    other.  In particular the map ["hip_.*": 50, "hip_left": 80] over the
    joints hip_left, hip_right gives the stiffness [80, 50] in every
    environment. *)
Theorem overlay_last_match_wins :
  (forall (scalar : Type) (zero inf : scalar)
          (write_error : scalar -> option library_error)
          (re_fullmatch : string -> string -> re_outcome)
          (cls : string) (c : ActuatorBaseCfg scalar) (names : list string)
          (ids : dof_ids) (num_envs : nat) (device : string) (g : ActuatorBase scalar),
      __init__ zero inf write_error re_fullmatch cls c names ids num_envs device = Ok g ->
      forall (env index : nat) (dof_name : string),
        env < num_envs ->
        names !! index = Some dof_name ->
        cell (stiffness g) env index =
          Some (default zero (overlay_value re_fullmatch (cfg_stiffness c) dof_name)) /\
        cell (damping g) env index =
          Some (default zero (overlay_value re_fullmatch (cfg_damping c) dof_name))) /\
  (forall (cls : string) (ids : dof_ids) (num_envs : nat) (device : string),
      exists g,
        construct cls hip_cfg hip_joints ids num_envs device = Ok g /\
        rows (stiffness g) = replicate num_envs [Num 80; Num 50]).
Proof.
  split.
  - intros. by apply init_cells with (inf := inf) (write_error := write_error)
      (cls := cls) (ids := ids) (num_envs := num_envs) (device := device)
      (names := names).
  - intros cls ids num_envs device.
    unfold construct, __init__, hip_cfg, hip_joints, dof_names. simpl.
    eexists. split; [reflexivity|]. simpl.
    rewrite !fmap_replicate. reflexivity.
Qed.

Lemma overlay_last_match_wins_witness :
  exists g,
    construct "IdealActuator" hip_cfg hip_joints Ellipsis 2 "cpu" = Ok g /\
    cell (stiffness g) 1 0 = Some (Num 80) /\
    cell (stiffness g) 1 1 = Some (Num 50) /\
    cell (damping g) 1 0 = Some (Num 0).
Proof.
  eexists. split; [reflexivity|].
  destruct overlay_last_match_wins as [general _].
  pose proof (general number (Num 0) Inf store_error fragment_matcher "IdealActuator" hip_cfg
                hip_joints Ellipsis 2 "cpu" _ eq_refl) as Hcells.
  destruct (Hcells 1 0 "hip_left" ltac:(lia) eq_refl) as [Hk Hd].
  destruct (Hcells 1 1 "hip_right" ltac:(lia) eq_refl) as [Hk' _].
  split; [exact Hk|]. split; [exact Hk'|exact Hd].
Defined.

(** C2, as the code has it.  Constructing a group on an empty joint-name list
    completes: no statement of the constructor looks at the number of joints,
    the loop over the joints has nothing to visit, and the group is left with
    four buffers of shape [(num_envs, 0)]. *)
Theorem empty_joint_list_constructs
    (scalar : Type) (zero inf : scalar) (write_error : scalar -> option library_error)
    (re_fullmatch : string -> string -> re_outcome)
    (cls : string) (c : ActuatorBaseCfg scalar) (ids : dof_ids) (num_envs : nat)
    (device : string) :
  exists g,
    __init__ zero inf write_error re_fullmatch cls c [] ids num_envs device = Ok g /\
    num_joints g = 0 /\
    dof_names g = [] /\
    shape (computed_effort g) = (num_envs, 0) /\
    shape (applied_effort g) = (num_envs, 0) /\
    shape (stiffness g) = (num_envs, 0) /\
    shape (damping g) = (num_envs, 0).
Proof. eexists. split; [reflexivity|]. repeat split. Qed.

(** C2, as stated, fails: a group whose patterns resolve to no joint is
    constructed, and no [ConfigurationError] is raised. *)
Lemma empty_joint_list_counterexample :
  (exists g, construct "IdealActuator" hip_cfg [] (Ids []) 4 "cpu" = Ok g /\ num_joints g = 0) /\
  construct "IdealActuator" hip_cfg [] (Ids []) 4 "cpu" <> Raise ConfigurationError.
Proof. split; [eexists; split; reflexivity|discriminate]. Qed.

(** C3.  After construction the effort limit is the configured one when the
    configuration has one and positive infinity otherwise, and likewise the
    velocity limit. *)
Theorem limits_from_configuration
    (scalar : Type) (zero inf : scalar) (write_error : scalar -> option library_error)
    (re_fullmatch : string -> string -> re_outcome)
    (cls : string) (c : ActuatorBaseCfg scalar) (names : list string) (ids : dof_ids)
    (num_envs : nat) (device : string) (g : ActuatorBase scalar) :
  __init__ zero inf write_error re_fullmatch cls c names ids num_envs device = Ok g ->
  effort_limit g = default inf (cfg_effort_limit c) /\
  velocity_limit g = default inf (cfg_velocity_limit c).
Proof.
  intros Hrun. apply init_frame in Hrun. rewrite Hrun. simpl.
  by destruct (cfg_effort_limit c), (cfg_velocity_limit c).
Qed.

Lemma limits_from_configuration_witness :
  exists g,
    construct "IdealActuator" limited_cfg hip_joints (Ids [3; 7]%Z) 2 "cpu" = Ok g /\
    effort_limit g = Num 40 /\ velocity_limit g = Inf.
Proof.
  eexists. split; [reflexivity|].
  exact (limits_from_configuration number (Num 0) Inf store_error fragment_matcher "IdealActuator"
           limited_cfg hip_joints (Ids [3; 7]%Z) 2 "cpu" _ eq_refl).
Defined.









(** C5.  The loops over the joints start from a group whose computed-effort,
    applied-effort, stiffness and damping buffers are all [zeros(num_envs, n)],
    [n] the number of joint names; and in the constructed group the four
    buffers have the shape [(num_envs, n)], rows and columns included. *)
Theorem buffers_allocated_zero
    (scalar : Type) (zero inf : scalar) (write_error : scalar -> option library_error)
    (re_fullmatch : string -> string -> re_outcome)
    (cls : string) (c : ActuatorBaseCfg scalar) (names : list string) (ids : dof_ids)
    (num_envs : nat) (device : string) :
  let start := parse_limits (allocate zero inf cls c names ids num_envs device) in
  let full := zeros zero num_envs (length names) in
  __init__ zero inf write_error re_fullmatch cls c names ids num_envs device =
    parse_gains write_error re_fullmatch 0 names start /\
  (computed_effort start = full /\ applied_effort start = full /\
   stiffness start = full /\ damping start = full) /\
  (forall g,
     __init__ zero inf write_error re_fullmatch cls c names ids num_envs device = Ok g ->
     (shape (computed_effort g) = (num_envs, length names) /\ well_shaped (computed_effort g)) /\
     (shape (applied_effort g) = (num_envs, length names) /\ well_shaped (applied_effort g)) /\
     (shape (stiffness g) = (num_envs, length names) /\ well_shaped (stiffness g)) /\
     (shape (damping g) = (num_envs, length names) /\ well_shaped (damping g))).
Proof.
  intros start full. split; [reflexivity|]. split; [by repeat split|].
  intros g Hrun.
  pose proof (init_frame _ _ _ _ _ _ _ _ _ _ _ Hrun) as Hframe.
  pose proof (init_shape _ _ _ _ _ _ _ _ _ _ _ Hrun) as [Hks Hds].
  apply parse_gains_well_shaped in Hrun as [Hkw Hdw];
    try (simpl; apply well_shaped_zeros).
  split; [|split; [|split]]; try done.
  - rewrite Hframe. simpl. split; [done|apply well_shaped_zeros].
  - rewrite Hframe. simpl. split; [done|apply well_shaped_zeros].
Qed.

Lemma buffers_allocated_zero_witness :
  exists g,
    construct "IdealActuator" hip_cfg hip_joints Ellipsis 3 "cpu" = Ok g /\
    shape (computed_effort g) = (3, 2) /\ shape (applied_effort g) = (3, 2) /\
    shape (stiffness g) = (3, 2) /\ shape (damping g) = (3, 2).
Proof.
  eexists. split; [reflexivity|].
  destruct (buffers_allocated_zero number (Num 0) Inf store_error fragment_matcher "IdealActuator"
              hip_cfg hip_joints Ellipsis 3 "cpu") as (_ & _ & Hshapes).
  destruct (Hshapes _ eq_refl) as ((Hc & _) & (Ha & _) & (Hk & _) & (Hd & _)).
  repeat split; assumption.
Defined.


Lemma keys_entries {scalar : Type} (gains : option (list (string * option scalar)))
    (re_key : string) :
  In re_key (keys gains) -> exists value, In (re_key, value) (entries gains).
Proof.
  destruct gains as [items|]; simpl; [|done].
  rewrite in_map_iff. intros ([k value] & <- & Hin). eauto.
Qed.

Lemma init_same_maps_iff {scalar : Type} (zero inf : scalar)
    (write_error : scalar -> option library_error)
    (re_fullmatch : string -> string -> re_outcome)
    (cls cls' : string) (c c' : ActuatorBaseCfg scalar) (names : list string)
    (ids ids' : dof_ids) (num_envs : nat) (device device' : string) :
  cfg_stiffness c' = cfg_stiffness c ->
  cfg_damping c' = cfg_damping c ->
  (forall e,
     __init__ zero inf write_error re_fullmatch cls c names ids num_envs device = Raise e <->
     __init__ zero inf write_error re_fullmatch cls' c' names ids' num_envs device' = Raise e) /\
  ((exists g,
      __init__ zero inf write_error re_fullmatch cls c names ids num_envs device = Ok g) <->
   (exists g',
      __init__ zero inf write_error re_fullmatch cls' c' names ids' num_envs device' = Ok g')).
Proof.
  intros Hk Hd.
  pose proof (init_same_maps zero inf write_error re_fullmatch cls cls' c c' names
                ids ids' num_envs device device' Hk Hd) as Hsame.
  destruct (__init__ _ _ _ _ cls c _ _ _ _) as [g|e1],
           (__init__ _ _ _ _ cls' c' _ _ _ _) as [g'|e2]; try done.
  - split; [done|]. split; eauto.
  - subst e2. split; [done|]. split; intros [? ?]; discriminate.
Qed.

Lemma init_not_ConfigurationError {scalar : Type} (zero inf : scalar)
    (write_error : scalar -> option library_error)
    (re_fullmatch : string -> string -> re_outcome)
    (cls : string) (c : ActuatorBaseCfg scalar) (names : list string)
    (ids : dof_ids) (num_envs : nat) (device : string) :
  __init__ zero inf write_error re_fullmatch cls c names ids num_envs device <>
    Raise ConfigurationError.
Proof.
  intros Hrun. apply init_Raise in Hrun as (le & n & entry & Hle & _). discriminate.
Qed.

(** C6, as the code has it.  The constructor never raises
    [ConfigurationError] and never compiles the patterns of [dof_names_expr]:
    whether it completes, and the error it ends with, depend on the
    configuration through the two gain maps only.  A key of the stiffness or
    damping map that does not compile surfaces only through [re.fullmatch]
    while a joint is visited: whenever construction completes, [re.fullmatch]
    raised for no key of either map on any joint name; when it raises for the
    first stiffness key on the first joint, that error, [re.error] for a key
    that does not compile, leaves the constructor as it is; and with no joint
    at all construction completes, whatever the keys. *)
Theorem invalid_pattern_outcomes
    (scalar : Type) (zero inf : scalar) (write_error : scalar -> option library_error)
    (re_fullmatch : string -> string -> re_outcome)
    (cls : string) (c : ActuatorBaseCfg scalar) (names : list string) (ids : dof_ids)
    (num_envs : nat) (device : string) :
  __init__ zero inf write_error re_fullmatch cls c names ids num_envs device <>
    Raise ConfigurationError /\
  (forall c',
     cfg_stiffness c' = cfg_stiffness c ->
     cfg_damping c' = cfg_damping c ->
     (forall e,
        __init__ zero inf write_error re_fullmatch cls c names ids num_envs device = Raise e <->
        __init__ zero inf write_error re_fullmatch cls c' names ids num_envs device = Raise e) /\
     ((exists g,
         __init__ zero inf write_error re_fullmatch cls c names ids num_envs device = Ok g) <->
      (exists g',
         __init__ zero inf write_error re_fullmatch cls c' names ids num_envs device = Ok g'))) /\
  (forall g,
     __init__ zero inf write_error re_fullmatch cls c names ids num_envs device = Ok g ->
     forall re_key dof_name e,
       In re_key (keys (cfg_stiffness c) ++ keys (cfg_damping c))%list ->
       In dof_name names ->
       re_fullmatch re_key dof_name <> Raises e) /\
  (forall dof_name rest re_key value after e,
     names = dof_name :: rest ->
     cfg_stiffness c = Some ((re_key, value) :: after) ->
     re_fullmatch re_key dof_name = Raises e ->
     __init__ zero inf write_error re_fullmatch cls c names ids num_envs device = Raise e) /\
  (names = [] ->
   exists g, __init__ zero inf write_error re_fullmatch cls c names ids num_envs device = Ok g).
Proof.
  split; [apply init_not_ConfigurationError|].
  split; [intros c'; apply init_same_maps_iff|].
  split; [|split].
  - intros g Hrun re_key dof_name e Hkey Hname Hraise.
    assert (Hentry : exists value,
               In (re_key, value) (entries (cfg_stiffness c) ++ entries (cfg_damping c))%list).
    { apply in_app_iff in Hkey as [Hkey|Hkey]; apply keys_entries in Hkey as [value Hin];
        exists value; apply in_app_iff; auto. }
    destruct Hentry as [value Hentry].
    pose proof (init_Ok_passes zero inf write_error re_fullmatch cls c names ids num_envs
                  device g dof_name Hrun Hname) as Hall.
    rewrite Forall_forall in Hall. apply list_elem_of_In in Hentry.
    specialize (Hall _ Hentry). unfold passes in Hall. simpl in Hall.
    by rewrite Hraise in Hall.
  - intros dof_name rest re_key value after e -> Hmap Hraise.
    unfold __init__, dof_names. simpl. rewrite Hmap. simpl. by rewrite Hraise.
  - intros ->. eexists. reflexivity.
Qed.

Lemma invalid_pattern_outcomes_witness :
  construct "IdealActuator" unclosed_first_cfg hip_joints Ellipsis 2 "cpu" =
    Raise (re_error "(") /\
  (exists g, construct "IdealActuator" unclosed_cfg [] Ellipsis 2 "cpu" = Ok g) /\
  fragment_matcher "hip_.*" "hip_left" <> Raises (re_error "hip_.*") /\
  (exists g, construct "IdealActuator" unclosed_expr_cfg hip_joints Ellipsis 2 "cpu" = Ok g).
Proof.
  destruct (invalid_pattern_outcomes number (Num 0) Inf store_error fragment_matcher
              "IdealActuator" unclosed_first_cfg hip_joints Ellipsis 2 "cpu")
    as (_ & _ & _ & Hfirst & _).
  destruct (invalid_pattern_outcomes number (Num 0) Inf store_error fragment_matcher
              "IdealActuator" unclosed_cfg [] Ellipsis 2 "cpu")
    as (_ & _ & _ & _ & Hempty).
  destruct (invalid_pattern_outcomes number (Num 0) Inf store_error fragment_matcher
              "IdealActuator" negative_cfg hip_joints Ellipsis 2 "cpu")
    as (_ & Hmaps & Hclean & _ & _).
  split; [|split; [|split]].
  - exact (Hfirst "hip_left" ["hip_right"] "(" None [("hip_.*", Some (Num 50))]
             (re_error "(") eq_refl eq_refl eq_refl).
  - exact (Hempty eq_refl).
  - apply (Hclean _ eq_refl); simpl; auto.
  - destruct (Hmaps unclosed_expr_cfg eq_refl eq_refl) as [_ Hcompletes].
    apply Hcompletes. eexists. reflexivity.
Defined.

(** C6, as stated, fails.  The key ["("] does not compile.  Over two joints
    the constructor raises [re.error], not [ConfigurationError]; over no
    joint it completes; and the same text as a group-defining expression
    leaves the constructor undisturbed. *)
Lemma invalid_pattern_counterexample :
  Re.parse "(" = Re.Invalid /\
  construct "IdealActuator" unclosed_cfg hip_joints Ellipsis 2 "cpu" = Raise (re_error "(") /\
  construct "IdealActuator" unclosed_cfg hip_joints Ellipsis 2 "cpu" <> Raise ConfigurationError /\
  (exists g, construct "IdealActuator" unclosed_cfg [] (Ids []) 2 "cpu" = Ok g) /\
  (exists g, construct "IdealActuator" unclosed_expr_cfg hip_joints Ellipsis 2 "cpu" = Ok g).
Proof.
  split; [reflexivity|]. split; [reflexivity|]. split; [discriminate|].
  split; eexists; reflexivity.
Qed.

(** C7, as the code has it.  The constructor makes no check on a configured
    limit.  It never raises [ConfigurationError]; whether it completes, and
    the error it ends with, are the same whatever the limits of the
    configuration; and whenever it completes, the group holds the configured
    effort and velocity limits as they are, whatever their sign. *)
Theorem limits_stored_unchecked
    (scalar : Type) (zero inf : scalar) (write_error : scalar -> option library_error)
    (re_fullmatch : string -> string -> re_outcome)
    (cls : string) (c : ActuatorBaseCfg scalar) (names : list string) (ids : dof_ids)
    (num_envs : nat) (device : string) :
  __init__ zero inf write_error re_fullmatch cls c names ids num_envs device <>
    Raise ConfigurationError /\
  (forall c',
     cfg_stiffness c' = cfg_stiffness c ->
     cfg_damping c' = cfg_damping c ->
     (forall e,
        __init__ zero inf write_error re_fullmatch cls c names ids num_envs device = Raise e <->
        __init__ zero inf write_error re_fullmatch cls c' names ids num_envs device = Raise e) /\
     ((exists g,
         __init__ zero inf write_error re_fullmatch cls c names ids num_envs device = Ok g) <->
      (exists g',
         __init__ zero inf write_error re_fullmatch cls c' names ids num_envs device = Ok g'))) /\
  (forall g,
     __init__ zero inf write_error re_fullmatch cls c names ids num_envs device = Ok g ->
     (forall l, cfg_effort_limit c = Some l -> effort_limit g = l) /\
     (forall l, cfg_velocity_limit c = Some l -> velocity_limit g = l)).
Proof.
  split; [apply init_not_ConfigurationError|].
  split; [intros c'; apply init_same_maps_iff|].
  intros g Hrun. apply init_frame in Hrun. rewrite Hrun. simpl.
  split; intros l ->; reflexivity.
Qed.

Lemma limits_stored_unchecked_witness :
  exists g,
    construct "IdealActuator" negative_cfg hip_joints Ellipsis 2 "cpu" = Ok g /\
    effort_limit g = Num (-5) /\ velocity_limit g = Num (-1).
Proof.
  destruct (limits_stored_unchecked number (Num 0) Inf store_error fragment_matcher
              "IdealActuator" unclosed_expr_cfg hip_joints Ellipsis 2 "cpu")
    as (_ & Hmaps & _).
  destruct (limits_stored_unchecked number (Num 0) Inf store_error fragment_matcher
              "IdealActuator" negative_cfg hip_joints Ellipsis 2 "cpu")
    as (_ & _ & Hstored).
  destruct (Hmaps negative_cfg eq_refl eq_refl) as [_ [Hcompletes _]].
  destruct Hcompletes as [g Hrun]; [eexists; reflexivity|].
  exists g. split; [exact Hrun|].
  destruct (Hstored g Hrun) as [He Hv].
  split; [by apply He|by apply Hv].
Defined.

(** C7, as stated, fails: with an effort limit of -5 and a velocity limit of
    -1 the group is constructed and holds both. *)
Lemma negative_limit_counterexample :
  exists g,
    construct "IdealActuator" negative_cfg hip_joints Ellipsis 2 "cpu" = Ok g /\
    effort_limit g = Num (-5) /\ velocity_limit g = Num (-1).
Proof. eexists. split; [reflexivity|]. split; reflexivity. Qed.

Lemma NoDup_range n : NoDup (range n).
Proof.
  unfold range. apply NoDup_fmap_2; [|apply NoDup_seq].
  intros a b. apply Nat2Z.inj.
Qed.

Lemma length_range n : length (range n) = n.
Proof. unfold range. by rewrite length_fmap, length_seq. Qed.

(** C8, as the code has it.  The constructor keeps the joint names and the
    joint indices it is given, unchecked and unchanged: the three accessors of
    the constructed group return the names, the indices and the number of the
    names passed in, the gain loops leaving them alone.  So the group's joint
    set has unique indices, as many as its names, exactly when the caller
    passed the sentinel or an index list that was so. *)
Theorem joint_set_as_given
    (scalar : Type) (zero inf : scalar) (write_error : scalar -> option library_error)
    (re_fullmatch : string -> string -> re_outcome)
    (cls : string) (c : ActuatorBaseCfg scalar) (names : list string) (ids : dof_ids)
    (num_envs : nat) (device : string) (g : ActuatorBase scalar) :
  __init__ zero inf write_error re_fullmatch cls c names ids num_envs device = Ok g ->
  dof_names g = names /\
  dof_indices g = ids /\
  num_joints g = length names /\
  (joint_set_invariant g <->
   match ids with
   | Ellipsis => True
   | Ids l => NoDup l /\ length l = length names
   end).
Proof.
  intros Hrun. apply init_frame in Hrun.
  assert (Hn : dof_names g = names) by (rewrite Hrun; reflexivity).
  assert (Hi : dof_indices g = ids) by (rewrite Hrun; reflexivity).
  split; [done|]. split; [done|].
  split; [unfold num_joints; fold (dof_names g); by rewrite Hn|].
  unfold joint_set_invariant, resolved_indices, num_joints.
  fold (dof_names g). rewrite Hn, Hi.
  destruct ids as [|l]; [|done].
  split; [done|]. intros _. split; [apply NoDup_range|apply length_range].
Qed.

Lemma joint_set_as_given_witness :
  exists g,
    construct "IdealActuator" hip_cfg hip_joints (Ids [3; 7]%Z) 2 "cpu" = Ok g /\
    dof_names g = hip_joints /\ dof_indices g = Ids [3; 7]%Z /\ num_joints g = 2 /\
    joint_set_invariant g.
Proof.
  eexists. split; [reflexivity|].
  destruct (joint_set_as_given number (Num 0) Inf store_error fragment_matcher "IdealActuator" hip_cfg
              hip_joints (Ids [3; 7]%Z) 2 "cpu" _ eq_refl) as (Hn & Hi & Hc & Hinv).
  split; [exact Hn|]. split; [exact Hi|]. split; [exact Hc|].
  apply Hinv. split; [|reflexivity].
  apply NoDup_cons. split; [|apply NoDup_singleton].
  intros Hin. apply list_elem_of_singleton in Hin. discriminate.
Defined.

(** C8, as stated, fails: one joint name with the index list [0, 0] is
    accepted, and the constructed group has a repeated index and more indices
    than names. *)
Lemma joint_set_counterexample :
  exists g,
    construct "IdealActuator" hip_cfg ["hip_left"] (Ids [0; 0]%Z) 2 "cpu" = Ok g /\
    dof_indices g = Ids [0; 0]%Z /\
    ~ NoDup (resolved_indices g) /\
    length (resolved_indices g) <> length (dof_names g) /\
    ~ joint_set_invariant g.
Proof.
  eexists. split; [reflexivity|]. split; [reflexivity|].
  assert (Hdup : ~ NoDup [0%Z; 0%Z]).
  { intros Hnd. apply NoDup_cons in Hnd as [Hnot _]. apply Hnot. by left. }
  split; [exact Hdup|]. split; [discriminate|].
  intros [Hnd _]. by apply Hdup.
Qed.

(** ** The summary *)

Lemma append_assoc (a b d : string) : (a ++ b) ++ d = a ++ b ++ d.
Proof. induction a as [|x a IH]; simpl; [reflexivity|by rewrite IH]. Qed.

Lemma append_empty_r (a : string) : a ++ EmptyString = a.
Proof. induction a as [|x a IH]; simpl; [reflexivity|by rewrite IH]. Qed.

Lemma occurs_in_here (x r : string) : occurs_in x (x ++ r).
Proof. exists EmptyString, r. reflexivity. Qed.

Lemma occurs_in_end (x : string) : occurs_in x x.
Proof. exists EmptyString, EmptyString. simpl. by rewrite append_empty_r. Qed.

Lemma occurs_in_later (x p r : string) : occurs_in x r -> occurs_in x (p ++ r).
Proof.
  intros (before & after & ->). exists (p ++ before), after.
  by rewrite append_assoc.
Qed.

(** C9, as the code has it.  The summary has a line for the number of
    joints, one for the configured name expressions, one for the joint names
    and one for the joint indices; when the group holds the sentinel the last
    line shows the indices 0 to n-1 written out, so the summary is the one of
    the same group holding that index list. *)
Theorem summary_lists_group (scalar : Type) (self : ActuatorBase scalar) :
  occurs_in (line "Number of joints      : " (str_int (Z.of_nat (num_joints self))))
    (__str__ self) /\
  occurs_in (line "Joint names expression: "
               (str_list repr_str (cfg_dof_names_expr (cfg self))))
    (__str__ self) /\
  occurs_in (line "Joint names           : " (str_list repr_str (dof_names self)))
    (__str__ self) /\
  occurs_in (line "Joint indices         : " (str_list str_int (resolved_indices self)))
    (__str__ self) /\
  (dof_indices self = Ellipsis ->
   __str__ self = __str__ (with_indices self (Ids (range (num_joints self))))).
Proof.
  unfold __str__, resolved_indices.
  split; [|split; [|split; [|split]]].
  - do 4 apply occurs_in_later. apply occurs_in_here.
  - do 5 apply occurs_in_later. apply occurs_in_here.
  - do 6 apply occurs_in_later. apply occurs_in_here.
  - do 7 apply occurs_in_later. apply occurs_in_end.
  - intros Hsentinel. unfold dof_indices in *. rewrite Hsentinel. reflexivity.
Qed.

Lemma summary_lists_group_witness :
  exists g,
    construct "IdealActuator" hip_cfg hip_joints Ellipsis 2 "cpu" = Ok g /\
    __str__ g = __str__ (with_indices g (Ids [0; 1]%Z)).
Proof.
  eexists. split; [reflexivity|].
  destruct (summary_lists_group number (parse_limits
              (allocate (Num 0) Inf "IdealActuator" hip_cfg hip_joints Ellipsis 2 "cpu")))
    as (_ & _ & _ & _ & Hsame).
  exact (Hsame eq_refl).
Defined.

(** C9, as stated, fails: the summary of a group built with the sentinel, over
    two joints, ends with the index list [0, 1]; no marker stands in its
    place. *)
Lemma summary_counterexample :
  exists g,
    construct "IdealActuator" hip_cfg hip_joints Ellipsis 2 "cpu" = Ok g /\
    dof_indices g = Ellipsis /\
    __str__ g =
      "<class IdealActuator> object:" ++ String newline EmptyString ++
      line "Number of joints      : " "2" ++
      line "Joint names expression: " "['hip_.*']" ++
      line "Joint names           : " "['hip_left', 'hip_right']" ++
      line "Joint indices         : " "[0, 1]".
Proof. eexists. split; [reflexivity|]. split; reflexivity. Qed.

(** C10.  In the constructed group the computed-effort and applied-effort
    buffers are [zeros(num_envs, n)], whatever the gain maps and the limits:
    every cell of both is zero. *)
Theorem effort_buffers_stay_zero
    (scalar : Type) (zero inf : scalar) (write_error : scalar -> option library_error)
    (re_fullmatch : string -> string -> re_outcome)
    (cls : string) (c : ActuatorBaseCfg scalar) (names : list string) (ids : dof_ids)
    (num_envs : nat) (device : string) (g : ActuatorBase scalar) :
  __init__ zero inf write_error re_fullmatch cls c names ids num_envs device = Ok g ->
  computed_effort g = zeros zero num_envs (length names) /\
  applied_effort g = zeros zero num_envs (length names) /\
  (forall env index, env < num_envs -> index < length names ->
     cell (computed_effort g) env index = Some zero /\
     cell (applied_effort g) env index = Some zero).
Proof.
  intros Hrun. apply init_frame in Hrun. rewrite Hrun. simpl.
  split; [done|]. split; [done|].
  intros env index Henv Hindex. unfold zeros_like. simpl.
  by rewrite !cell_zeros.
Qed.

Lemma effort_buffers_stay_zero_witness :
  exists g,
    construct "IdealActuator" limited_cfg hip_joints Ellipsis 2 "cpu" = Ok g /\
    rows (computed_effort g) = [[Num 0; Num 0]; [Num 0; Num 0]] /\
    rows (applied_effort g) = [[Num 0; Num 0]; [Num 0; Num 0]].
Proof.
  eexists. split; [reflexivity|].
  destruct (effort_buffers_stay_zero number (Num 0) Inf store_error fragment_matcher "IdealActuator"
              limited_cfg hip_joints Ellipsis 2 "cpu" _ eq_refl) as (Hc & Ha & _).
  split; [exact (f_equal rows Hc)|exact (f_equal rows Ha)].
Defined.

(** * Further properties of the constructor *)

Section TensorExtensionality.
Context {scalar : Type}.
Implicit Types t : Tensor scalar.

(** Two well-shaped tensors of one shape with the same cells are equal. *)
Lemma tensor_ext t t' :
  shape t = shape t' ->
  well_shaped t -> well_shaped t' ->
  (forall env index, env < fst (shape t) -> index < snd (shape t) ->
     cell t env index = cell t' env index) ->
  t = t'.
Proof.
  destruct t as [sh rs], t' as [sh' rs']. unfold well_shaped, cell. simpl.
  intros <- [Hlen Hrows] [Hlen' Hrows'] Hcells. f_equal.
  apply list_eq. intros env.
  destruct (decide (env < fst sh)) as [Henv|Henv].
  - destruct (lookup_lt_is_Some_2 rs env ltac:(lia)) as [row Hrow].
    destruct (lookup_lt_is_Some_2 rs' env ltac:(lia)) as [row' Hrow'].
    rewrite Hrow, Hrow'. f_equal.
    pose proof (Forall_lookup_1 _ _ _ _ Hrows Hrow) as Hl. simpl in Hl.
    pose proof (Forall_lookup_1 _ _ _ _ Hrows' Hrow') as Hl'. simpl in Hl'.
    apply list_eq. intros index.
    destruct (decide (index < snd sh)) as [Hindex|Hindex].
    + specialize (Hcells env index Henv Hindex). by rewrite Hrow, Hrow' in Hcells.
    + rewrite !lookup_ge_None_2 by lia. done.
  - rewrite !lookup_ge_None_2 by lia. done.
Qed.
End TensorExtensionality.

Section WholeFacts.
Context {scalar : Type}.
Variables (zero inf : scalar).
Variable re_fullmatch : string -> string -> re_outcome.
Implicit Types (items : list (string * option scalar)).
Implicit Types (gains : option (list (string * option scalar))).

Lemma well_shaped_gains_tensor gains names num_envs :
  well_shaped (gains_tensor zero re_fullmatch gains names num_envs).
Proof.
  split; simpl.
  - apply length_replicate.
  - apply Forall_replicate. by rewrite length_fmap.
Qed.

Lemma cell_gains_tensor gains names num_envs env index :
  cell (gains_tensor zero re_fullmatch gains names num_envs) env index =
  if decide (env < num_envs)
  then (fun dof_name => default zero (overlay_value re_fullmatch gains dof_name))
         <$> names !! index
  else None.
Proof.
  unfold cell, gains_tensor. simpl. case_decide.
  - rewrite lookup_replicate_2 by done. apply list_lookup_fmap.
  - by rewrite lookup_ge_None_2 by (rewrite length_replicate; lia).
Qed.

Lemma last_assigned_filter items dof_name :
  last_assigned re_fullmatch (List.filter has_value items) dof_name =
  last_assigned re_fullmatch items dof_name.
Proof.
  induction items as [|[k [v|]] rest IH]; simpl; [done| |].
  - by rewrite IH.
  - rewrite IH. destruct (last_assigned re_fullmatch rest dof_name); [done|].
    by destruct (re_fullmatch k dof_name).
Qed.

Lemma last_assigned_Some items dof_name v :
  last_assigned re_fullmatch items dof_name = Some v ->
  exists re_key, In (re_key, Some v) items /\ re_fullmatch re_key dof_name = Match.
Proof.
  induction items as [|[k value] rest IH]; simpl; [done|].
  destruct (last_assigned re_fullmatch rest dof_name) as [w|].
  - intros [= ->]. destruct IH as (key & Hin & Hm); eauto.
  - destruct (re_fullmatch k dof_name) eqn:Hm; try discriminate.
    intros ->. eauto.
Qed.

Lemma last_assigned_unmatched items dof_name :
  (forall re_key, In re_key (fst <$> items) -> re_fullmatch re_key dof_name = NoMatch) ->
  last_assigned re_fullmatch items dof_name = None.
Proof.
  induction items as [|[k value] rest IH]; simpl; [done|].
  intros Hkeys. rewrite IH by auto. by rewrite (Hkeys k) by auto.
Qed.

Lemma last_assigned_swap before after (e1 e2 : string * option scalar) dof_name :
  ~ (re_fullmatch (fst e1) dof_name = Match /\ re_fullmatch (fst e2) dof_name = Match) ->
  last_assigned re_fullmatch (before ++ e1 :: e2 :: after)%list dof_name =
  last_assigned re_fullmatch (before ++ e2 :: e1 :: after)%list dof_name.
Proof.
  intros Hdisjoint. induction before as [|[k value] rest IH]; simpl.
  - destruct e1 as [k1 v1], e2 as [k2 v2]. simpl in *.
    destruct (last_assigned re_fullmatch after dof_name); [done|].
    destruct (re_fullmatch k1 dof_name), (re_fullmatch k2 dof_name);
      try done; try (by destruct v1); try (by destruct v2).
    destruct Hdisjoint. done.
  - by rewrite IH.
Qed.
End WholeFacts.

Section InitWhole.
Context {scalar : Type}.
Variables (zero inf : scalar).
Variable write_error : scalar -> option library_error.
Variable re_fullmatch : string -> string -> re_outcome.
Variables (cls : string) (c : ActuatorBaseCfg scalar) (names : list string).
Variables (ids : dof_ids) (num_envs : nat) (device : string).

Local Abbreviation init :=
  (__init__ zero inf write_error re_fullmatch cls c names ids num_envs device).

Lemma init_gains g :
  init = Ok g ->
  stiffness g = gains_tensor zero re_fullmatch (cfg_stiffness c) names num_envs /\
  damping g = gains_tensor zero re_fullmatch (cfg_damping c) names num_envs.
Proof.
  intros Hrun.
  destruct (init_shape _ _ _ _ _ _ _ _ _ _ _ Hrun) as [Hks Hds].
  destruct (init_well_shaped _ _ _ _ _ _ _ _ _ _ _ Hrun) as [Hkw Hdw].
  split; (apply tensor_ext; [done|done|apply well_shaped_gains_tensor|]).
  - rewrite Hks. simpl. intros env index Henv Hindex.
    destruct (lookup_lt_is_Some_2 names index Hindex) as [dof_name Hname].
    destruct (init_cells zero inf write_error re_fullmatch cls c names ids num_envs device
                g env index dof_name Hrun Henv Hname) as [-> _].
    rewrite cell_gains_tensor, Hname. by case_decide.
  - rewrite Hds. simpl. intros env index Henv Hindex.
    destruct (lookup_lt_is_Some_2 names index Hindex) as [dof_name Hname].
    destruct (init_cells zero inf write_error re_fullmatch cls c names ids num_envs device
                g env index dof_name Hrun Henv Hname) as [_ ->].
    rewrite cell_gains_tensor, Hname. by case_decide.
Qed.
End InitWhole.

Lemma gains_tensor_ext {scalar : Type} (zero : scalar)
    (re_fullmatch : string -> string -> re_outcome)
    (gains gains' : option (list (string * option scalar)))
    (names : list string) (num_envs : nat) :
  (forall dof_name, In dof_name names ->
     overlay_value re_fullmatch gains dof_name = overlay_value re_fullmatch gains' dof_name) ->
  gains_tensor zero re_fullmatch gains names num_envs =
  gains_tensor zero re_fullmatch gains' names num_envs.
Proof.
  intros Hsame. unfold gains_tensor. do 2 f_equal.
  apply list_fmap_ext. intros i dof_name Hname. simpl.
  rewrite Hsame; [done|]. apply list_elem_of_In. by eapply list_elem_of_lookup_2.
Qed.

(** X1.  The stiffness of a constructed group is the tensor whose every row,
    one for each environment, lists for each joint the overlay value of its
    name under the stiffness map, zero where there is none; the damping is
    the same tensor for the damping map.  All environments hold the same
    gains, and a joint's gain depends on its name alone. *)
Theorem gains_closed_form
    (scalar : Type) (zero inf : scalar) (write_error : scalar -> option library_error)
    (re_fullmatch : string -> string -> re_outcome)
    (cls : string) (c : ActuatorBaseCfg scalar) (names : list string) (ids : dof_ids)
    (num_envs : nat) (device : string) (g : ActuatorBase scalar) :
  __init__ zero inf write_error re_fullmatch cls c names ids num_envs device = Ok g ->
  stiffness g = gains_tensor zero re_fullmatch (cfg_stiffness c) names num_envs /\
  damping g = gains_tensor zero re_fullmatch (cfg_damping c) names num_envs.
Proof. apply init_gains. Qed.

Lemma gains_closed_form_witness :
  exists g,
    construct "IdealActuator" limited_cfg hip_joints Ellipsis 3 "cpu" = Ok g /\
    rows (stiffness g) = [[Num 50; Num 50]; [Num 50; Num 50]; [Num 50; Num 50]] /\
    rows (damping g) = [[Num 0; Num 0]; [Num 0; Num 0]; [Num 0; Num 0]].
Proof.
  eexists. split; [reflexivity|].
  destruct (gains_closed_form number (Num 0) Inf store_error fragment_matcher "IdealActuator"
              limited_cfg hip_joints Ellipsis 3 "cpu" _ eq_refl) as [Hk Hd].
  split; [exact (f_equal rows Hk)|exact (f_equal rows Hd)].
Defined.

Lemma passes_iff {scalar : Type} (re_fullmatch : string -> string -> re_outcome)
    (write_error : scalar -> option library_error) (dof_name re_key : string)
    (value : option scalar) :
  passes re_fullmatch write_error dof_name (re_key, value) <->
  (forall e, re_fullmatch re_key dof_name <> Raises e) /\
  (forall v, re_fullmatch re_key dof_name = Match -> value = Some v -> write_error v = None).
Proof.
  unfold passes. simpl. destruct (re_fullmatch re_key dof_name) as [| |e0].
  - destruct value as [v|].
    + split.
      * intros Hw. split; [done|]. by intros w _ [= <-].
      * intros [_ Hw]. by apply Hw.
    + split; [|done]. intros _. split; [done|]. by intros w _ [=].
  - split; [|done]. intros _. split; [done|]. by intros w [=].
  - split; [done|]. intros [Hno _]. by destruct (Hno e0).
Qed.

(** X2.  Construction completes exactly when, for every joint name and every
    entry of the stiffness and damping maps, [re.fullmatch] does not raise on
    the entry's key and, where the key full-matches the name and the entry
    carries a value, the buffer takes the value: every key of both maps is
    tried on every joint, whether or not it carries a value. *)
Theorem construction_completes_iff
    (scalar : Type) (zero inf : scalar) (write_error : scalar -> option library_error)
    (re_fullmatch : string -> string -> re_outcome)
    (cls : string) (c : ActuatorBaseCfg scalar) (names : list string) (ids : dof_ids)
    (num_envs : nat) (device : string) :
  (exists g, __init__ zero inf write_error re_fullmatch cls c names ids num_envs device = Ok g) <->
  (forall dof_name re_key value,
     In dof_name names ->
     In (re_key, value) (entries (cfg_stiffness c) ++ entries (cfg_damping c))%list ->
     (forall e, re_fullmatch re_key dof_name <> Raises e) /\
     (forall v, re_fullmatch re_key dof_name = Match -> value = Some v ->
        write_error v = None)).
Proof.
  split.
  - intros [g Hrun] dof_name re_key value Hname Hentry.
    pose proof (init_Ok_passes zero inf write_error re_fullmatch cls c names ids num_envs
                  device g dof_name Hrun Hname) as Hall.
    rewrite Forall_forall in Hall. apply list_elem_of_In in Hentry.
    by apply passes_iff, Hall.
  - intros Hall. apply init_total. intros dof_name Hname.
    apply Forall_forall. intros [re_key value] Hentry. apply list_elem_of_In in Hentry.
    apply passes_iff. by apply Hall.
Qed.

Lemma construction_completes_iff_witness :
  (exists g, construct "IdealActuator" limited_cfg hip_joints Ellipsis 3 "cpu" = Ok g) /\
  store_error (Num 50) = None.
Proof.
  destruct (construction_completes_iff number (Num 0) Inf store_error fragment_matcher
              "IdealActuator" limited_cfg hip_joints Ellipsis 3 "cpu") as [Honly Hif].
  assert (Hrun : exists g,
             construct "IdealActuator" limited_cfg hip_joints Ellipsis 3 "cpu" = Ok g).
  { apply Hif. intros dof_name re_key value Hname Hentry. simpl in Hname, Hentry.
    destruct Hentry as [[= <- <-]|[[= <- <-]|[]]];
      destruct Hname as [<-|[<-|[]]];
      (split; [intros e; discriminate|intros v _ [= <-]; reflexivity]). }
  split; [exact Hrun|].
  destruct (Honly Hrun "hip_left" "hip_.*" (Some (Num 50))) as [_ Hwrite];
    [simpl; auto|simpl; auto|].
  apply Hwrite; reflexivity.
Defined.

(** X3.  With at least one joint, when [re.fullmatch] raises for a key on the
    first joint's name and every entry before it in the order of the loop
    passes, that error leaves the constructor as it is, whether or not the key
    carries a value: for a key of the stiffness map whatever the damping map
    holds, and for a key of the damping map when every stiffness entry
    passes. *)
Theorem first_raising_key_is_reported
    (scalar : Type) (zero inf : scalar) (write_error : scalar -> option library_error)
    (re_fullmatch : string -> string -> re_outcome)
    (cls : string) (c : ActuatorBaseCfg scalar) (dof_name : string) (rest : list string)
    (ids : dof_ids) (num_envs : nat) (device : string)
    (before after : list (string * option scalar)) (re_key : string)
    (value : option scalar) (e : library_error) :
  re_fullmatch re_key dof_name = Raises e ->
  Forall (passes re_fullmatch write_error dof_name) before ->
  (cfg_stiffness c = Some (before ++ (re_key, value) :: after)%list ->
   __init__ zero inf write_error re_fullmatch cls c (dof_name :: rest) ids num_envs device =
     Raise e) /\
  (cfg_damping c = Some (before ++ (re_key, value) :: after)%list ->
   Forall (passes re_fullmatch write_error dof_name) (entries (cfg_stiffness c)) ->
   __init__ zero inf write_error re_fullmatch cls c (dof_name :: rest) ids num_envs device =
     Raise e).
Proof.
  intros Hraise Hbefore. unfold __init__, dof_names. simpl. split.
  - intros ->. simpl.
    rewrite (assign_items_first_failure write_error re_fullmatch before after re_key
               value dof_name 0 _ e); [done|simpl; lia|done|done].
  - intros -> Hstiffness.
    destruct (assign_gains_passes write_error re_fullmatch (cfg_stiffness c) dof_name 0
                (zeros_like zero (zeros zero num_envs (S (length rest)))))
      as [k Hk]; simpl; [lia|done|].
    rewrite Hk. simpl.
    rewrite (assign_items_first_failure write_error re_fullmatch before after re_key
               value dof_name 0 _ e); [done|simpl; lia|done|done].
Qed.

Lemma first_raising_key_is_reported_witness :
  construct "IdealActuator" unvalued_cfg hip_joints Ellipsis 2 "cpu" = Raise (re_error "*") /\
  construct "IdealActuator" bad_damping_cfg hip_joints Ellipsis 2 "cpu" =
    Raise (re_error "(").
Proof.
  destruct (first_raising_key_is_reported number (Num 0) Inf store_error fragment_matcher
              "IdealActuator" unvalued_cfg "hip_left" ["hip_right"] Ellipsis 2 "cpu"
              [("hip_.*", Some (Num 50))] [] "*" None (re_error "*") eq_refl)
    as [Hstiffness _].
  { constructor; [reflexivity|constructor]. }
  destruct (first_raising_key_is_reported number (Num 0) Inf store_error fragment_matcher
              "IdealActuator" bad_damping_cfg "hip_left" ["hip_right"] Ellipsis 2 "cpu"
              [("hip_left", None)] [] "(" (Some (Num 1)) (re_error "(") eq_refl)
    as [_ Hdamping].
  { constructor; [exact I|constructor]. }
  split.
  - apply Hstiffness. reflexivity.
  - apply Hdamping; [reflexivity|]. constructor; [reflexivity|constructor].
Defined.

(** Two configurations give the same gains over the same joints when the
    entries of the second are entries of the first and both give every joint
    name the same overlay values. *)
Lemma init_same_gains {scalar : Type} (zero inf : scalar)
    (write_error : scalar -> option library_error)
    (re_fullmatch : string -> string -> re_outcome)
    (cls cls' : string) (c c' : ActuatorBaseCfg scalar) (names : list string)
    (ids ids' : dof_ids) (num_envs : nat) (device device' : string)
    (g : ActuatorBase scalar) :
  (forall entry,
     In entry (entries (cfg_stiffness c') ++ entries (cfg_damping c'))%list ->
     In entry (entries (cfg_stiffness c) ++ entries (cfg_damping c))%list) ->
  (forall dof_name, In dof_name names ->
     overlay_value re_fullmatch (cfg_stiffness c') dof_name =
     overlay_value re_fullmatch (cfg_stiffness c) dof_name) ->
  (forall dof_name, In dof_name names ->
     overlay_value re_fullmatch (cfg_damping c') dof_name =
     overlay_value re_fullmatch (cfg_damping c) dof_name) ->
  __init__ zero inf write_error re_fullmatch cls c names ids num_envs device = Ok g ->
  exists g',
    __init__ zero inf write_error re_fullmatch cls' c' names ids' num_envs device' = Ok g' /\
    stiffness g' = stiffness g /\ damping g' = damping g.
Proof.
  intros Hentries Hk Hd Hrun.
  destruct (init_total zero inf write_error re_fullmatch cls' c' names ids' num_envs device')
    as [g' Hrun'].
  { intros dof_name Hname.
    pose proof (init_Ok_passes zero inf write_error re_fullmatch cls c names ids num_envs
                  device g dof_name Hrun Hname) as Hall.
    rewrite Forall_forall in Hall. apply Forall_forall. intros entry Hentry.
    apply Hall. apply list_elem_of_In, Hentries. by apply list_elem_of_In. }
  exists g'. split; [done|].
  apply init_gains in Hrun as [-> ->]. apply init_gains in Hrun' as [-> ->].
  split; by apply gains_tensor_ext.
Qed.

Lemma entries_filter_has_value {scalar : Type}
    (gains : option (list (string * option scalar))) (entry : string * option scalar) :
  In entry (entries (List.filter has_value <$> gains)) -> In entry (entries gains).
Proof.
  destruct gains as [items|]; simpl; [|done].
  intros Hin. by apply filter_In in Hin as [Hin _].
Qed.

(** X4.  The entries of a gain map that carry no value never write: where a
    configuration constructs, the configuration without those entries
    constructs too, over the same joints, and gives the same stiffness and
    damping. *)
Theorem absent_values_are_skipped
    (scalar : Type) (zero inf : scalar) (write_error : scalar -> option library_error)
    (re_fullmatch : string -> string -> re_outcome)
    (cls : string) (c c' : ActuatorBaseCfg scalar) (names : list string) (ids : dof_ids)
    (num_envs : nat) (device : string) (g : ActuatorBase scalar) :
  cfg_stiffness c' = (List.filter has_value <$> cfg_stiffness c) ->
  cfg_damping c' = (List.filter has_value <$> cfg_damping c) ->
  __init__ zero inf write_error re_fullmatch cls c names ids num_envs device = Ok g ->
  exists g',
    __init__ zero inf write_error re_fullmatch cls c' names ids num_envs device = Ok g' /\
    stiffness g' = stiffness g /\ damping g' = damping g.
Proof.
  intros Hk Hd. apply init_same_gains.
  - intros entry. rewrite Hk, Hd, !in_app_iff.
    intros [Hin|Hin]; apply entries_filter_has_value in Hin; auto.
  - intros dof_name _. rewrite Hk.
    destruct (cfg_stiffness c); simpl; [apply last_assigned_filter|done].
  - intros dof_name _. rewrite Hd.
    destruct (cfg_damping c); simpl; [apply last_assigned_filter|done].
Qed.

Lemma absent_values_are_skipped_witness :
  exists g g',
    construct "IdealActuator" limited_cfg hip_joints Ellipsis 2 "cpu" = Ok g /\
    construct "IdealActuator" limited_cfg_pruned hip_joints Ellipsis 2 "cpu" = Ok g' /\
    stiffness g' = stiffness g /\ damping g' = damping g.
Proof.
  eexists.
  destruct (absent_values_are_skipped number (Num 0) Inf store_error fragment_matcher "IdealActuator"
              limited_cfg limited_cfg_pruned hip_joints Ellipsis 2 "cpu" _
              eq_refl eq_refl eq_refl) as (g' & Hrun' & Hk & Hd).
  exists g'. split; [reflexivity|]. split; [exact Hrun'|]. split; [exact Hk|exact Hd].
Defined.

Lemma fmap_constant {A B : Type} (f : A -> B) (b : B) (l : list A) :
  (forall x, In x l -> f x = b) -> f <$> l = replicate (length l) b.
Proof.
  induction l as [|x l IH]; intros Hall; simpl; [done|].
  rewrite Hall by (by left). f_equal. apply IH. intros y Hy. apply Hall. by right.
Qed.

(** X5.  A gain map none of whose keys full-matches a joint name is a silent
    no-op: the buffer it governs is still [zeros(num_envs, n)] in the
    constructed group. *)
Theorem unmatched_map_leaves_zeros
    (scalar : Type) (zero inf : scalar) (write_error : scalar -> option library_error)
    (re_fullmatch : string -> string -> re_outcome)
    (cls : string) (c : ActuatorBaseCfg scalar) (names : list string) (ids : dof_ids)
    (num_envs : nat) (device : string) (g : ActuatorBase scalar) :
  __init__ zero inf write_error re_fullmatch cls c names ids num_envs device = Ok g ->
  ((forall re_key dof_name,
      In re_key (keys (cfg_stiffness c)) -> In dof_name names ->
      re_fullmatch re_key dof_name = NoMatch) ->
   stiffness g = zeros zero num_envs (length names)) /\
  ((forall re_key dof_name,
      In re_key (keys (cfg_damping c)) -> In dof_name names ->
      re_fullmatch re_key dof_name = NoMatch) ->
   damping g = zeros zero num_envs (length names)).
Proof.
  intros Hrun. apply init_gains in Hrun as [-> ->].
  assert (Hzero : forall gains,
             (forall re_key dof_name, In re_key (keys gains) -> In dof_name names ->
                re_fullmatch re_key dof_name = NoMatch) ->
             gains_tensor zero re_fullmatch gains names num_envs =
             zeros zero num_envs (length names)).
  { intros gains Hnone. unfold gains_tensor, zeros. do 2 f_equal.
    apply fmap_constant. intros dof_name Hname.
    destruct gains as [items|]; simpl; [|done].
    rewrite last_assigned_unmatched; [done|].
    intros re_key Hkey. by apply Hnone. }
  split; apply Hzero.
Qed.

Lemma unmatched_map_leaves_zeros_witness :
  exists g,
    construct "IdealActuator" knee_cfg hip_joints Ellipsis 2 "cpu" = Ok g /\
    stiffness g = zeros (Num 0) 2 2 /\ damping g = zeros (Num 0) 2 2.
Proof.
  eexists. split; [reflexivity|].
  destruct (unmatched_map_leaves_zeros number (Num 0) Inf store_error fragment_matcher "IdealActuator"
              knee_cfg hip_joints Ellipsis 2 "cpu" _ eq_refl) as [Hk Hd].
  split.
  - apply Hk. intros re_key dof_name Hkey Hname. simpl in Hkey, Hname.
    destruct Hkey as [<-|[]]; destruct Hname as [<-|[<-|[]]]; reflexivity.
  - apply Hd. intros re_key dof_name Hkey Hname. simpl in Hkey, Hname.
    destruct Hkey as [<-|[]]; destruct Hname as [<-|[<-|[]]]; reflexivity.
Defined.

(** X6.  A gain buffer of a constructed group has a cell only inside
    [num_envs] rows and one column for each joint name, and the cell holds
    zero or a value that the map gives to a pattern full-matching that joint's
    name: the constructor writes nothing else. *)
Theorem gains_come_from_the_map
    (scalar : Type) (zero inf : scalar) (write_error : scalar -> option library_error)
    (re_fullmatch : string -> string -> re_outcome)
    (cls : string) (c : ActuatorBaseCfg scalar) (names : list string) (ids : dof_ids)
    (num_envs : nat) (device : string) (g : ActuatorBase scalar)
    (env index : nat) (v : scalar) :
  __init__ zero inf write_error re_fullmatch cls c names ids num_envs device = Ok g ->
  (cell (stiffness g) env index = Some v ->
   env < num_envs /\
   exists dof_name, names !! index = Some dof_name /\
     (v = zero \/
      exists items re_key,
        cfg_stiffness c = Some items /\ In (re_key, Some v) items /\
        re_fullmatch re_key dof_name = Match)) /\
  (cell (damping g) env index = Some v ->
   env < num_envs /\
   exists dof_name, names !! index = Some dof_name /\
     (v = zero \/
      exists items re_key,
        cfg_damping c = Some items /\ In (re_key, Some v) items /\
        re_fullmatch re_key dof_name = Match)).
Proof.
  intros Hrun. apply init_gains in Hrun as [-> ->].
  assert (Hfrom : forall gains,
             cell (gains_tensor zero re_fullmatch gains names num_envs) env index = Some v ->
             env < num_envs /\
             exists dof_name, names !! index = Some dof_name /\
               (v = zero \/
                exists items re_key,
                  gains = Some items /\ In (re_key, Some v) items /\
                  re_fullmatch re_key dof_name = Match)).
  { intros gains. rewrite cell_gains_tensor. case_decide; [|done].
    destruct (names !! index) as [dof_name|]; simpl; [|done].
    intros [= <-]. split; [done|]. exists dof_name. split; [done|].
    destruct gains as [items|]; simpl; [|by left].
    destruct (last_assigned re_fullmatch items dof_name) as [w|] eqn:Hlast; simpl; [|by left].
    apply last_assigned_Some in Hlast as (re_key & Hin & Hm). right. eauto. }
  split; apply Hfrom.
Qed.

Lemma gains_come_from_the_map_witness :
  exists g,
    construct "IdealActuator" hip_cfg hip_joints Ellipsis 2 "cpu" = Ok g /\
    cell (stiffness g) 1 0 = Some (Num 80) /\
    exists dof_name, hip_joints !! 0 = Some dof_name /\
      (Num 80 = Num 0 \/
       exists items re_key,
         cfg_stiffness hip_cfg = Some items /\ In (re_key, Some (Num 80)) items /\
         fragment_matcher re_key dof_name = Match).
Proof.
  eexists. split; [reflexivity|]. split; [reflexivity|].
  destruct (gains_come_from_the_map number (Num 0) Inf store_error fragment_matcher "IdealActuator"
              hip_cfg hip_joints Ellipsis 2 "cpu" _ 1 0 (Num 80) eq_refl) as [Hk _].
  destruct (Hk eq_refl) as [_ Hfrom]. exact Hfrom.
Defined.

(** X7.  The order of two neighbouring entries of the stiffness map matters
    only where their patterns overlap: if no joint name is full-matched by
    both, the configuration with the two entries exchanged constructs as well
    and gives the same stiffness and damping. *)
Theorem disjoint_entries_commute
    (scalar : Type) (zero inf : scalar) (write_error : scalar -> option library_error)
    (re_fullmatch : string -> string -> re_outcome)
    (cls : string) (c c' : ActuatorBaseCfg scalar) (names : list string) (ids : dof_ids)
    (num_envs : nat) (device : string) (g : ActuatorBase scalar)
    (before after : list (string * option scalar)) (e1 e2 : string * option scalar) :
  cfg_stiffness c = Some (before ++ e1 :: e2 :: after)%list ->
  cfg_stiffness c' = Some (before ++ e2 :: e1 :: after)%list ->
  cfg_damping c' = cfg_damping c ->
  (forall dof_name, In dof_name names ->
     ~ (re_fullmatch (fst e1) dof_name = Match /\ re_fullmatch (fst e2) dof_name = Match)) ->
  __init__ zero inf write_error re_fullmatch cls c names ids num_envs device = Ok g ->
  exists g',
    __init__ zero inf write_error re_fullmatch cls c' names ids num_envs device = Ok g' /\
    stiffness g' = stiffness g /\ damping g' = damping g.
Proof.
  intros Hk Hk' Hd Hdisjoint. apply init_same_gains.
  - intros entry. rewrite Hk, Hk', Hd. simpl.
    rewrite !in_app_iff. simpl. tauto.
  - intros dof_name Hname. rewrite Hk, Hk'. simpl.
    symmetry. apply last_assigned_swap. by apply Hdisjoint.
  - intros dof_name _. by rewrite Hd.
Qed.

Lemma disjoint_entries_commute_witness :
  exists g g',
    construct "IdealActuator" left_right_cfg hip_joints Ellipsis 2 "cpu" = Ok g /\
    construct "IdealActuator" right_left_cfg hip_joints Ellipsis 2 "cpu" = Ok g' /\
    stiffness g' = stiffness g /\ damping g' = damping g.
Proof.
  assert (Hdisjoint : forall dof_name, In dof_name hip_joints ->
            ~ (fragment_matcher "hip_left" dof_name = Match /\
               fragment_matcher "hip_right" dof_name = Match)).
  { intros dof_name Hname. simpl in Hname.
    destruct Hname as [<-|[<-|[]]]; intros [Hl Hr]; discriminate. }
  eexists.
  destruct (disjoint_entries_commute number (Num 0) Inf store_error fragment_matcher "IdealActuator"
              left_right_cfg right_left_cfg hip_joints Ellipsis 2 "cpu" _
              [] [] ("hip_left", Some (Num 80)) ("hip_right", Some (Num 50))
              eq_refl eq_refl eq_refl Hdisjoint eq_refl) as (g' & Hrun' & Hk & Hd).
  exists g'. split; [reflexivity|]. split; [exact Hrun'|]. split; [exact Hk|exact Hd].
Defined.

(** X8.  The summary of a constructed group reads the class name, the
    configured name expressions, the joint names and the joint indices, and
    nothing else: two constructions that agree on these give the same
    summary, whatever their gain maps, limits, number of environments and
    device. *)
Theorem summary_ignores_gains
    (scalar : Type) (zero inf : scalar) (write_error : scalar -> option library_error)
    (re_fullmatch : string -> string -> re_outcome)
    (cls : string) (c c' : ActuatorBaseCfg scalar) (names : list string) (ids : dof_ids)
    (num_envs num_envs' : nat) (device device' : string) (g g' : ActuatorBase scalar) :
  cfg_dof_names_expr c' = cfg_dof_names_expr c ->
  __init__ zero inf write_error re_fullmatch cls c names ids num_envs device = Ok g ->
  __init__ zero inf write_error re_fullmatch cls c' names ids num_envs' device' = Ok g' ->
  __str__ g' = __str__ g.
Proof.
  intros Hexpr Hrun Hrun'.
  apply init_frame in Hrun. apply init_frame in Hrun'.
  rewrite Hrun, Hrun'. unfold __str__, dof_indices, dof_names, num_joints. simpl.
  by rewrite Hexpr.
Qed.

Lemma summary_ignores_gains_witness :
  exists g g',
    construct "IdealActuator" hip_cfg hip_joints Ellipsis 2 "cpu" = Ok g /\
    construct "IdealActuator" negative_cfg hip_joints Ellipsis 5 "cuda:0" = Ok g' /\
    __str__ g' = __str__ g.
Proof.
  do 2 eexists. split; [reflexivity|]. split; [reflexivity|].
  exact (summary_ignores_gains number (Num 0) Inf store_error fragment_matcher "IdealActuator"
           hip_cfg negative_cfg hip_joints Ellipsis 2 5 "cpu" "cuda:0" _ _
           eq_refl eq_refl eq_refl).
Defined.

(** On the patterns of the fragment the answer of [Re.fullmatch] does not
    depend on the behaviour given for the patterns outside it. *)
Lemma fullmatch_inside_fragment (beyond beyond' : string -> string -> re_outcome)
    (pattern s : string) :
  Re.parse pattern <> Re.Unsupported ->
  Re.fullmatch beyond pattern s = Re.fullmatch beyond' pattern s.
Proof. unfold Re.fullmatch. by destruct (Re.parse pattern). Qed.
